(** * LruCacheBase (src/common/lru_cache.h): a shallow embedding

    The cache keeps two indexes over one set of entries:
    - [keysToTimeAndValue_], a map from the key tuple to the pair
      (insertion timestamp, value);
    - [timeToKeys_], a [std::set] of pairs (timestamp, pointer to the key
      tuple stored inside the node of the first map).

    Modelling choices.
    - [SteadyTimePoint] and [SteadyDuration] (common/time_utils.h) count
      the ticks of [std::chrono::steady_clock] in a signed 64-bit integer.
      The model keeps them as integers and computes [ts + maxTime_] exactly:
      it agrees with lines 51 and 132 as long as that sum is within the
      64-bit range ([age_sum_ok]), and the theorems that depend on the
      outcome of the staleness test assume so.
    - The key tuple [std::tuple<Keys...>] is one abstract countable type.
    - The primary index is a [gmap]; every entry records the address of its
      node, which is what [&iterator->first] evaluates to.  The address of a
      new node is chosen by the allocator and is an input of the insertion.
    - The [std::set] is its in-order traversal: a list that is strictly
      increasing for the lexicographic order on (timestamp, address).
    - [sassert] (common/massert.h) evaluates its argument and aborts the
      process when it is false: the operations live in the [Checked] monad.
    - Dereferencing a key pointer looks for the node at that address; a
      pointer to no live node is undefined behaviour in the source and an
      abort in the model.
    - An exception leaves the cache object alive: [get] reports [Thrown]
      together with the state the caller can observe afterwards.  The
      exceptions modelled are those of the obtainer and of the two
      insertions of the [try] block; copying a key tuple or a value and
      locking the mutex are taken not to throw.
    - The value obtainer may have effects of its own; these go through an
      abstract environment [Env] that [get] threads, so that a call of the
      obtainer can be observed (a log or a counter of calls is an instance).
    - [std::move(value)] leaves the local variable in the moved-from state
      of its type, the parameter [moved_from]. *)

From stdpp Require Import gmap list strings.

Local Open Scope Z_scope.
Set Warnings "-clear-no-such-hyp".

(** ** Abort-or-result monad for [sassert] *)

Inductive Checked (A : Type) : Type :=
  | Ok (a : A)
  | Abort.
Arguments Ok {A} a.
Arguments Abort {A}.

#[global] Instance Checked_ret : MRet Checked := fun _ a => Ok a.
#[global] Instance Checked_bind : MBind Checked := fun _ _ f c =>
  match c with
  | Ok a => f a
  | Abort => Abort
  end.

Definition sassert (b : bool) : Checked unit :=
  if b then Ok tt else Abort.

(** ** The recency index: [std::set<std::pair<SteadyTimePoint, const KeysTuple*>>] *)

Module TimeSet.

(** [operator<] of [std::pair]: lexicographic. *)
Definition pair_ltb (x y : Z * Z) : bool :=
  (x.1 <? y.1) || ((x.1 =? y.1) && (x.2 <? y.2)).

Definition pair_lt (x y : Z * Z) : Prop :=
  x.1 < y.1 ∨ (x.1 = y.1 ∧ x.2 < y.2).

(** [std::set::insert(value)]: no effect when an equivalent element is there. *)
Fixpoint insert (x : Z * Z) (l : list (Z * Z)) : list (Z * Z) :=
  match l with
  | [] => [x]
  | y :: l' =>
      if pair_ltb x y then x :: l
      else if pair_ltb y x then y :: insert x l'
      else l
  end.

(** [std::set::erase(key)]: the new set and the number of elements removed. *)
Fixpoint erase (x : Z * Z) (l : list (Z * Z)) : list (Z * Z) * nat :=
  match l with
  | [] => ([], 0%nat)
  | y :: l' =>
      if decide (x = y) then (l', 1%nat)
      else let r := erase x l' in (y :: r.1, r.2)
  end.

(** The representation invariant of the set: strictly increasing. *)
Fixpoint sorted (l : list (Z * Z)) : Prop :=
  match l with
  | [] => True
  | x :: l' => Forall (pair_lt x) l' ∧ sorted l'
  end.

End TimeSet.

(** ** The cache *)

Section LruCache.

Context {Key : Type} `{Countable Key}.
Context {Value Exn Env : Type}.

(** The state in which the move constructor of [Value] leaves its source
    (the identity for trivially copyable types, the null pointer for
    [std::shared_ptr], ...). *)
Variable moved_from : Value → Value.

(** Constructor arguments. *)
Variable maxTime_ : Z.
Variable maxElements_ : N.
Variable valueObtainer_ : Key → Env → (Exn + Value) * Env.

(** A node of [keysToTimeAndValue_]: the address of the stored key tuple
    and the mapped [TimeAndValue] pair. *)
Record Entry : Type := mkEntry {
  keyAddr : Z;
  timeAndValue : Z * Value;
}.

Record LruCacheBase : Type := mkCache {
  keysToTimeAndValue_ : gmap Key Entry;
  timeToKeys_ : list (Z * Z);
}.

Definition empty_cache : LruCacheBase :=
  {| keysToTimeAndValue_ := ∅; timeToKeys_ := [] |}.

(** [keysToTimeAndValue_.erase(key)]: the new map and the number of
    elements removed. *)
Definition map_erase (k : Key) (m : gmap Key Entry) : gmap Key Entry * nat :=
  (delete k m, match m !! k with Some _ => 1%nat | None => 0%nat end).

(** [*keyTuplePtr]: the key tuple stored at the address, if a live node of
    the primary index is there. *)
Definition deref (m : gmap Key Entry) (p : Z) : option Key :=
  fst <$> find (fun kn => bool_decide (keyAddr kn.2 = p)) (map_to_list m).

(** *** [cleanupWithoutLocking] (lines 125-140) *)

Fixpoint cleanup_loop (currentTs : Z) (budget : nat) (s : LruCacheBase)
  : Checked LruCacheBase :=
  match budget with
  | O => Ok s
  | S budget' =>
      match timeToKeys_ s with
      | [] => Ok s
      | oldestEntry :: rest =>
          let ts := oldestEntry.1 in
          if (ts + maxTime_ <? currentTs)
             || (maxElements_ <? N.of_nat (length (timeToKeys_ s)))%N
          then
            let keyTuplePtr := oldestEntry.2 in
            match deref (keysToTimeAndValue_ s) keyTuplePtr with
            | None => Abort
            | Some k =>
                let r := map_erase k (keysToTimeAndValue_ s) in
                sassert (r.2 =? 1)%nat ≫= fun _ =>
                cleanup_loop currentTs budget'
                  {| keysToTimeAndValue_ := r.1; timeToKeys_ := rest |}
            end
          else Ok s
      end
  end.

Definition cleanupWithoutLocking (currentTs : Z) (maxOperations : N)
    (s : LruCacheBase) : Checked LruCacheBase :=
  cleanup_loop currentTs (N.to_nat maxOperations) s.

(** *** [cleanup] (lines 99-102) *)

Definition cleanup (currentTs : Z) (maxOperations : N) (s : LruCacheBase)
  : Checked LruCacheBase :=
  cleanupWithoutLocking currentTs maxOperations s.

(** *** [erase] (lines 107-119) *)

Definition erase (keys : Key) (s : LruCacheBase) : Checked LruCacheBase :=
  match keysToTimeAndValue_ s !! keys with
  | Some entry =>
      let keyTuplePointer := keyAddr entry in
      let ts := (timeAndValue entry).1 in
      let tsAndKeys := (ts, keyTuplePointer) in
      let r := TimeSet.erase tsAndKeys (timeToKeys_ s) in
      sassert (r.2 =? 1)%nat ≫= fun _ =>
      Ok {| keysToTimeAndValue_ := delete keys (keysToTimeAndValue_ s);
            timeToKeys_ := r.1 |}
  | None => Ok s
  end.

(** *** [get] (lines 44-90) *)

(** First critical section (lines 45-59). *)
Inductive Lookup : Type :=
  | Hit (value : Value)
  | Miss (s : LruCacheBase).

Definition get_lookup (currentTs : Z) (keys : Key) (s : LruCacheBase)
  : Checked Lookup :=
  match keysToTimeAndValue_ s !! keys with
  | Some entry =>
      let keyTuplePointer := keyAddr entry in
      let ts := (timeAndValue entry).1 in
      if ts + maxTime_ >=? currentTs then Ok (Hit (timeAndValue entry).2)
      else
        let tsAndKeys := (ts, keyTuplePointer) in
        let r := TimeSet.erase tsAndKeys (timeToKeys_ s) in
        sassert (r.2 =? 1)%nat ≫= fun _ =>
        Ok (Miss {| keysToTimeAndValue_ := (map_erase keys (keysToTimeAndValue_ s)).1;
                    timeToKeys_ := r.1 |})
  | None => Ok (Miss s)
  end.

(** What the two insertions of the [try] block do: the node allocation of
    the primary index either throws or yields the address of the new node;
    the insertion into the set either throws or succeeds. *)
Record Insertion : Type := mkInsertion {
  primaryInsert : Exn + Z;
  recencyInsert : option Exn;
}.

(** Both insertions succeed and the new node is at address [a]. *)
Definition allocated (a : Z) : Insertion :=
  {| primaryInsert := inr a; recencyInsert := None |}.

Inductive Outcome : Type :=
  | Returned (value : Value)
  | Thrown (e : Exn).

(** Second critical section (lines 64-89), entered with the obtained value. *)
Definition get_fill (currentTs : Z) (keys : Key) (value : Value)
    (ins : Insertion) (s : LruCacheBase) : Checked (Outcome * LruCacheBase) :=
  match keysToTimeAndValue_ s !! keys with
  | Some _ => Ok (Returned value, s)
  | None =>
      match primaryInsert ins with
      | inl e =>
          Ok (Thrown e,
              {| keysToTimeAndValue_ := (map_erase keys (keysToTimeAndValue_ s)).1;
                 timeToKeys_ := timeToKeys_ s |})
      | inr addr =>
          let tsAndValue := (currentTs, value) in
          let m := <[keys := mkEntry addr tsAndValue]> (keysToTimeAndValue_ s) in
          match m !! keys with
          | None => Abort
          | Some keyToTimeAndValue =>
              let keysTuplePointer := keyAddr keyToTimeAndValue in
              let tsAndKeys := (currentTs, keysTuplePointer) in
              match recencyInsert ins with
              | Some e =>
                  Ok (Thrown e,
                      {| keysToTimeAndValue_ := (map_erase keys m).1;
                         timeToKeys_ := timeToKeys_ s |})
              | None =>
                  let few := 3%N in
                  cleanupWithoutLocking currentTs few
                    {| keysToTimeAndValue_ := m;
                       timeToKeys_ := TimeSet.insert tsAndKeys (timeToKeys_ s) |}
                  ≫= fun s' => Ok (Returned (moved_from value), s')
              end
          end
      end
  end.

(** The whole call when nothing else touches the cache while the obtainer
    runs. *)
Definition get (currentTs : Z) (keys : Key) (ins : Insertion)
    (s : LruCacheBase) (w : Env) : Checked (Outcome * LruCacheBase * Env) :=
  get_lookup currentTs keys s ≫= fun l =>
  match l with
  | Hit value => Ok (Returned value, s, w)
  | Miss s1 =>
      match valueObtainer_ keys w with
      | (inl e, w') => Ok (Thrown e, s1, w')
      | (inr value, w') =>
          get_fill currentTs keys value ins s1 ≫= fun r => Ok (r.1, r.2, w')
      end
  end.

(** *** Sequences of public operations *)

Inductive Op : Type :=
  | OpGet (currentTs : Z) (keys : Key) (ins : Insertion)
  | OpCleanup (currentTs : Z) (maxOperations : N)
  | OpErase (keys : Key).

Definition run (op : Op) (s : LruCacheBase) (w : Env)
  : Checked (LruCacheBase * Env) :=
  match op with
  | OpGet currentTs keys ins =>
      get currentTs keys ins s w ≫= fun r => Ok (r.1.2, r.2)
  | OpCleanup currentTs maxOperations =>
      cleanup currentTs maxOperations s ≫= fun s' => Ok (s', w)
  | OpErase keys =>
      erase keys s ≫= fun s' => Ok (s', w)
  end.

Definition is_get (op : Op) : Prop :=
  match op with
  | OpGet _ _ _ => True
  | _ => False
  end.

(** The allocator never hands out the address of a live node: the address
    of the node that an insertion creates differs from the address of every
    node of the primary index. *)
Definition fresh (a : Z) (m : gmap Key Entry) : Prop :=
  ∀ k e, m !! k = Some e → keyAddr e ≠ a.

(** For a whole [get] the node of the requested key may have been freed by
    the first critical section, so its address may be used again. *)
Definition alloc_ok (op : Op) (s : LruCacheBase) : Prop :=
  match op with
  | OpGet _ keys ins =>
      ∀ a, primaryInsert ins = inr a → fresh a (delete keys (keysToTimeAndValue_ s))
  | _ => True
  end.

(** States reached from the empty cache by operations taken from [allowed],
    each run to completion (returning or throwing). *)
Inductive reachable_by (allowed : Op → Prop) : LruCacheBase → Env → Prop :=
  | reachable_init w : reachable_by allowed empty_cache w
  | reachable_step s w op s' w' :
      reachable_by allowed s w →
      allowed op →
      alloc_ok op s →
      run op s w = Ok (s', w') →
      reachable_by allowed s' w'.

Definition reachable : LruCacheBase → Env → Prop :=
  reachable_by (fun _ => True).

(** *** The invariant coupling the two indexes *)

(** The pair that the recency index holds for a node of the primary index. *)
Definition tsAndKeys_of (e : Entry) : Z * Z := ((timeAndValue e).1, keyAddr e).

(** The state after [k] and the pair made from its node [e] are erased. *)
Definition without (k : Key) (e : Entry) (s : LruCacheBase) : LruCacheBase :=
  {| keysToTimeAndValue_ := delete k (keysToTimeAndValue_ s);
     timeToKeys_ := (TimeSet.erase (tsAndKeys_of e) (timeToKeys_ s)).1 |}.

(** The state after a node for [k] at address [a] and its pair are inserted. *)
Definition with_entry (k : Key) (a ts : Z) (v : Value) (s : LruCacheBase)
  : LruCacheBase :=
  {| keysToTimeAndValue_ := <[k := mkEntry a (ts, v)]> (keysToTimeAndValue_ s);
     timeToKeys_ := TimeSet.insert (ts, a) (timeToKeys_ s) |}.

Record consistent (s : LruCacheBase) : Prop := mkConsistent {
  cons_sorted : TimeSet.sorted (timeToKeys_ s);
  cons_primary : ∀ k e,
    keysToTimeAndValue_ s !! k = Some e → tsAndKeys_of e ∈ timeToKeys_ s;
  cons_recency : ∀ x,
    x ∈ timeToKeys_ s →
    ∃ k e, keysToTimeAndValue_ s !! k = Some e ∧ tsAndKeys_of e = x;
  cons_addr : ∀ k1 k2 e1 e2,
    keysToTimeAndValue_ s !! k1 = Some e1 →
    keysToTimeAndValue_ s !! k2 = Some e2 →
    keyAddr e1 = keyAddr e2 → k1 = k2;
  cons_size : length (timeToKeys_ s) = size (keysToTimeAndValue_ s);
}.

(** The 1:1 correspondence as the documentation words it. *)
Definition corresponds (s : LruCacheBase) : Prop :=
  NoDup (timeToKeys_ s)
  ∧ (∀ k e, keysToTimeAndValue_ s !! k = Some e →
       ∃ x, (x ∈ timeToKeys_ s
             ∧ deref (keysToTimeAndValue_ s) x.2 = Some k
             ∧ x.1 = (timeAndValue e).1)
            ∧ ∀ y, y ∈ timeToKeys_ s →
                   deref (keysToTimeAndValue_ s) y.2 = Some k → y = x)
  ∧ (∀ x, x ∈ timeToKeys_ s →
       ∃ k e, deref (keysToTimeAndValue_ s) x.2 = Some k
              ∧ keysToTimeAndValue_ s !! k = Some e
              ∧ (timeAndValue e).1 = x.1).

(** The two reasons for which the eviction pass removes the oldest entry. *)
Definition stale (currentTs : Z) (ts : Z) : Prop := ts + maxTime_ < currentTs.

Definition over_capacity (size : nat) : Prop := (maxElements_ < N.of_nat size)%N.

Definition within_capacity (s : LruCacheBase) : Prop :=
  ¬ over_capacity (length (timeToKeys_ s)).

#[global] Instance stale_dec currentTs ts : Decision (stale currentTs ts).
Proof. unfold stale. apply _. Defined.

#[global] Instance over_capacity_dec size : Decision (over_capacity size).
Proof. unfold over_capacity. apply _. Defined.

(** The insertion of the [try] block throws [e]. *)
Definition insertion_throws (ins : Insertion) (e : Exn) : Prop :=
  primaryInsert ins = inl e
  ∨ ((∃ a, primaryInsert ins = inr a) ∧ recencyInsert ins = Some e).

(** *** Interleavings under a real mutex

    With [std::mutex] for [Mutex] the cache is mutated only while the lock is
    held, so an execution of several threads is a sequence of critical
    sections: the two of [get] (the second one entered with whatever value
    the thread's obtainer returned, at any later moment), the one of
    [cleanup] and the one of [erase]. *)

Inductive CriticalSection : Type :=
  | CsLookup (currentTs : Z) (keys : Key)
  | CsFill (currentTs : Z) (keys : Key) (value : Value) (ins : Insertion)
  | CsCleanup (currentTs : Z) (maxOperations : N)
  | CsErase (keys : Key).

(** The cache as it is when the lock is released. *)
Definition enter (cs : CriticalSection) (s : LruCacheBase)
  : Checked LruCacheBase :=
  match cs with
  | CsLookup currentTs keys =>
      get_lookup currentTs keys s ≫= fun l =>
      match l with
      | Hit _ => Ok s
      | Miss s1 => Ok s1
      end
  | CsFill currentTs keys value ins =>
      get_fill currentTs keys value ins s ≫= fun r => Ok r.2
  | CsCleanup currentTs maxOperations => cleanup currentTs maxOperations s
  | CsErase keys => erase keys s
  end.

(** The node that the second critical section of [get] allocates is at the
    address of no node that is live at that moment. *)
Definition section_alloc_ok (cs : CriticalSection) (s : LruCacheBase) : Prop :=
  match cs with
  | CsFill _ _ _ ins =>
      ∀ a, primaryInsert ins = inr a → fresh a (keysToTimeAndValue_ s)
  | _ => True
  end.

Inductive reachable_mt : LruCacheBase → Prop :=
  | reachable_mt_init : reachable_mt empty_cache
  | reachable_mt_step s cs s' :
      reachable_mt s →
      section_alloc_ok cs s →
      enter cs s = Ok s' →
      reachable_mt s'.

(** *** The range of the tick arithmetic

    The sums of lines 51 and 132 are additions of 64-bit tick counts. *)

Definition tick_min : Z := - 2 ^ 63.
Definition tick_max : Z := 2 ^ 63 - 1.

Definition in_ticks (z : Z) : Prop := tick_min ≤ z ≤ tick_max.

(** [ts + maxTime_] does not overflow for an entry inserted at [ts]. *)
Definition age_sum_ok (ts : Z) : Prop := in_ticks (ts + maxTime_).

(** It does not overflow for any entry of the cache. *)
Definition sums_ok (s : LruCacheBase) : Prop :=
  ∀ x, x ∈ timeToKeys_ s → age_sum_ok x.1.

End LruCache.

(** ** Concrete caches

    Keys are names, an obtainer computes the length of the name and records
    every call in a log, which is the environment. *)

Module Scenario.

Definition name_length (k : string) (log : list string)
  : (string + Z) * list string :=
  (inr (Z.of_nat (String.length k)), log ++ [k]).

Definition unavailable (k : string) (log : list string)
  : (string + Z) * list string :=
  (inl "unavailable"%string, log ++ [k]).

(** Maximum age 10, at most 2 elements, a trivially copyable value. *)
Definition get10 :=
  @get string _ _ Z string (list string) (fun v => v) 10 2 name_length.

Definition sA : @LruCacheBase string _ _ Z :=
  {| keysToTimeAndValue_ := {[ "A"%string := mkEntry 300 (0, 1) ]};
     timeToKeys_ := [(0, 300)] |}.

Definition sAB : @LruCacheBase string _ _ Z :=
  {| keysToTimeAndValue_ :=
       <[ "B"%string := mkEntry 200 (1, 1) ]>
         {[ "A"%string := mkEntry 300 (0, 1) ]};
     timeToKeys_ := [(0, 300); (1, 200)] |}.

Definition sABC : @LruCacheBase string _ _ Z :=
  with_entry "C"%string 100 2 1 sAB.

Definition sBC : @LruCacheBase string _ _ Z :=
  {| keysToTimeAndValue_ :=
       <[ "C"%string := mkEntry 100 (2, 1) ]>
         {[ "B"%string := mkEntry 200 (1, 1) ]};
     timeToKeys_ := [(1, 200); (2, 100)] |}.

Definition sCA : @LruCacheBase string _ _ Z :=
  {| keysToTimeAndValue_ :=
       <[ "A"%string := mkEntry 300 (3, 1) ]>
         {[ "C"%string := mkEntry 100 (2, 1) ]};
     timeToKeys_ := [(2, 100); (3, 300)] |}.

(** A and B inserted at the same time, the node of B at the lower address. *)
Definition sAB_same_time : @LruCacheBase string _ _ Z :=
  {| keysToTimeAndValue_ :=
       <[ "B"%string := mkEntry 200 (0, 1) ]>
         {[ "A"%string := mkEntry 300 (0, 1) ]};
     timeToKeys_ := [(0, 200); (0, 300)] |}.

(** Maximum age 5. *)
Definition get5 :=
  @get string _ _ Z string (list string) (fun v => v) 5 2 name_length.

(** A value that is a shared pointer to an integer: [None] is the null
    pointer, which is what the move constructor leaves behind. *)
Definition shared_length (k : string) (log : list string)
  : (string + option Z) * list string :=
  (inr (Some (Z.of_nat (String.length k))), log ++ [k]).

Definition get_shared :=
  @get string _ _ (option Z) string (list string) (fun _ => None) 10 2
    shared_length.

Definition sA_shared : @LruCacheBase string _ _ (option Z) :=
  {| keysToTimeAndValue_ := {[ "A"%string := mkEntry 300 (0, Some 1) ]};
     timeToKeys_ := [(0, 300)] |}.

End Scenario.

(** * Proofs *)

(** ** Facts about the ordered set *)

Module TimeSetFacts.
Import TimeSet.

Lemma pair_ltb_lt x y : pair_ltb x y = true ↔ pair_lt x y.
Proof.
  unfold pair_ltb, pair_lt.
  rewrite orb_true_iff, andb_true_iff, !Z.ltb_lt, Z.eqb_eq. tauto.
Qed.

Lemma pair_ltb_nlt x y : pair_ltb x y = false ↔ ¬ pair_lt x y.
Proof. rewrite <- pair_ltb_lt. destruct (pair_ltb x y); naive_solver. Qed.

Lemma pair_lt_irrefl x : ¬ pair_lt x x.
Proof. unfold pair_lt. lia. Qed.

Lemma pair_lt_trans x y z : pair_lt x y → pair_lt y z → pair_lt x z.
Proof. unfold pair_lt. lia. Qed.

Lemma pair_lt_total x y : ¬ pair_lt x y → ¬ pair_lt y x → x = y.
Proof.
  destruct x as [t a], y as [t' a']. unfold pair_lt. simpl.
  intros. f_equal; lia.
Qed.

Lemma pair_lt_ts x y : pair_lt x y → x.1 ≤ y.1.
Proof. unfold pair_lt. lia. Qed.

Lemma sorted_not_in x l : Forall (pair_lt x) l → x ∉ l.
Proof.
  intros Hall Hin. rewrite Forall_forall in Hall.
  exact (pair_lt_irrefl x (Hall x Hin)).
Qed.

Lemma sorted_NoDup l : sorted l → NoDup l.
Proof.
  induction l as [|x l IH]; simpl.
  - constructor.
  - intros [Hx Hl]. constructor; auto using sorted_not_in.
Qed.

(** *** erase *)

Lemma erase_not_member x l : x ∉ l → erase x l = (l, 0%nat).
Proof.
  induction l as [|y l IH]; simpl; [done|].
  rewrite not_elem_of_cons. intros [Hne Hnin].
  destruct (decide (x = y)); [done|].
  rewrite (IH Hnin). done.
Qed.

Lemma erase_count x l : x ∈ l → (erase x l).2 = 1%nat.
Proof.
  induction l as [|y l IH]; simpl.
  - rewrite elem_of_nil. tauto.
  - intros Hin. destruct (decide (x = y)); [done|]. simpl.
    apply IH. apply elem_of_cons in Hin. naive_solver.
Qed.

Lemma erase_length x l : x ∈ l → S (length (erase x l).1) = length l.
Proof.
  induction l as [|y l IH]; simpl.
  - rewrite elem_of_nil. tauto.
  - intros Hin. destruct (decide (x = y)); [done|]. simpl.
    f_equal. apply IH. apply elem_of_cons in Hin. naive_solver.
Qed.

Lemma erase_subset x y l : y ∈ (erase x l).1 → y ∈ l.
Proof.
  induction l as [|z l IH]; simpl; [done|].
  destruct (decide (x = z)); simpl.
  - rewrite elem_of_cons. auto.
  - rewrite !elem_of_cons. naive_solver.
Qed.

Lemma erase_other x y l : y ∈ l → y ≠ x → y ∈ (erase x l).1.
Proof.
  induction l as [|z l IH]; simpl; [done|].
  rewrite elem_of_cons. intros Hin Hne.
  destruct (decide (x = z)); simpl.
  - naive_solver.
  - rewrite elem_of_cons. naive_solver.
Qed.

Lemma erase_Forall P x l : Forall P l → Forall P (erase x l).1.
Proof.
  rewrite !Forall_forall. intros Hall y Hy. eauto using erase_subset.
Qed.

Lemma erase_sorted x l : sorted l → sorted (erase x l).1.
Proof.
  induction l as [|z l IH]; simpl; [done|].
  intros [Hz Hl]. destruct (decide (x = z)); simpl; [done|].
  split; auto using erase_Forall.
Qed.

Lemma erase_gone x l : sorted l → x ∉ (erase x l).1.
Proof.
  induction l as [|z l IH]; simpl.
  - rewrite elem_of_nil. tauto.
  - intros [Hz Hl]. destruct (decide (x = z)) as [->|Hne]; simpl.
    + auto using sorted_not_in.
    + rewrite not_elem_of_cons. auto.
Qed.

Lemma elem_of_erase x y l :
  sorted l → y ∈ (erase x l).1 ↔ y ∈ l ∧ y ≠ x.
Proof.
  intros Hs. split.
  - intros Hy. split; [eauto using erase_subset|].
    intros ->. exact (erase_gone _ _ Hs Hy).
  - intros [? ?]. auto using erase_other.
Qed.

(** *** insert *)

Lemma elem_of_insert x y l : y ∈ insert x l ↔ y = x ∨ y ∈ l.
Proof.
  induction l as [|z l IH]; simpl.
  - rewrite list_elem_of_singleton, elem_of_nil. tauto.
  - destruct (pair_ltb x z) eqn:Hxz.
    + rewrite elem_of_cons. tauto.
    + destruct (pair_ltb z x) eqn:Hzx.
      * rewrite !elem_of_cons, IH. tauto.
      * apply pair_ltb_nlt in Hxz, Hzx.
        rewrite (pair_lt_total _ _ Hxz Hzx).
        rewrite elem_of_cons. tauto.
Qed.

Lemma insert_sorted x l : sorted l → sorted (insert x l).
Proof.
  induction l as [|z l IH]; simpl.
  - auto.
  - intros [Hz Hl]. destruct (pair_ltb x z) eqn:Hxz.
    + apply pair_ltb_lt in Hxz. simpl. split; [|done].
      constructor; [done|].
      eapply Forall_impl; [exact Hz|]. eauto using pair_lt_trans.
    + destruct (pair_ltb z x) eqn:Hzx; [|simpl; done].
      apply pair_ltb_lt in Hzx. simpl. split; [|auto].
      rewrite Forall_forall. intros y Hy.
      apply elem_of_insert in Hy as [->|Hy]; [done|].
      rewrite Forall_forall in Hz. auto.
Qed.

Lemma insert_length x l : x ∉ l → length (insert x l) = S (length l).
Proof.
  induction l as [|z l IH]; simpl; [done|].
  rewrite not_elem_of_cons. intros [Hne Hnin].
  destruct (pair_ltb x z) eqn:Hxz; [done|].
  destruct (pair_ltb z x) eqn:Hzx.
  - simpl. f_equal. auto.
  - apply pair_ltb_nlt in Hxz, Hzx.
    destruct Hne. apply pair_lt_total; done.
Qed.

(** The first element of the traversal is the minimum of the set. *)
Lemma sorted_head_min x l y : sorted (x :: l) → y ∈ l → pair_lt x y.
Proof.
  simpl. intros [Hx _] Hy. rewrite Forall_forall in Hx. auto.
Qed.

Lemma sorted_drop n l : sorted l → sorted (drop n l).
Proof.
  revert l. induction n as [|n IH]; intros [|x l]; simpl; try done.
  intros [_ Hl]. auto.
Qed.

End TimeSetFacts.

(** ** The cache operations *)

Section LruCacheProofs.

Set Default Proof Using "Type".

Context {Key : Type} `{Countable Key}.
Context {Value Exn Env : Type}.
Variable moved_from : Value → Value.
Variable maxTime_ : Z.
Variable maxElements_ : N.
Variable valueObtainer_ : Key → Env → (Exn + Value) * Env.

Local Abbreviation Cache := (@LruCacheBase Key _ _ Value).
Local Abbreviation cleanup_loop := (@cleanup_loop Key _ _ Value maxTime_ maxElements_).
Local Abbreviation cleanupWithoutLocking :=
  (@cleanupWithoutLocking Key _ _ Value maxTime_ maxElements_).
Local Abbreviation cleanup := (@cleanup Key _ _ Value maxTime_ maxElements_).
Local Abbreviation get_lookup := (@get_lookup Key _ _ Value maxTime_).
Local Abbreviation get_fill :=
  (@get_fill Key _ _ Value Exn moved_from maxTime_ maxElements_).
Local Abbreviation get :=
  (@get Key _ _ Value Exn Env moved_from maxTime_ maxElements_ valueObtainer_).
Local Abbreviation run :=
  (@run Key _ _ Value Exn Env moved_from maxTime_ maxElements_ valueObtainer_).
Local Abbreviation reachable_by :=
  (@reachable_by Key _ _ Value Exn Env moved_from maxTime_ maxElements_ valueObtainer_).
Local Abbreviation reachable :=
  (@reachable Key _ _ Value Exn Env moved_from maxTime_ maxElements_ valueObtainer_).
Local Abbreviation stale := (stale maxTime_).
Local Abbreviation over_capacity := (over_capacity maxElements_).
Local Abbreviation within_capacity := (@within_capacity Key _ _ Value maxElements_).
Local Abbreviation age_sum_ok := (age_sum_ok maxTime_).
Local Abbreviation sums_ok := (@sums_ok Key _ _ Value maxTime_).

Implicit Types (s : Cache) (m : gmap Key (@Entry Value)) (k keys : Key)
  (e : @Entry Value).

(** *** Dereferencing a key pointer *)

Lemma deref_Some m p k :
  deref m p = Some k → ∃ e, m !! k = Some e ∧ keyAddr e = p.
Proof.
  unfold deref. destruct (find _ _) as [[k' e]|] eqn:Hfind; [|done].
  simpl. intros [= ->]. apply find_some in Hfind as [Hin Hp].
  apply list_elem_of_In, elem_of_map_to_list in Hin.
  apply bool_decide_eq_true in Hp. eauto.
Qed.

Lemma deref_is_Some m k e : m !! k = Some e → is_Some (deref m (keyAddr e)).
Proof.
  intros Hk. unfold deref.
  destruct (find _ _) as [[k' e']|] eqn:Hfind; [by eexists|].
  apply find_none with (x := (k, e)) in Hfind.
  - simpl in Hfind. rewrite bool_decide_eq_false in Hfind. done.
  - apply list_elem_of_In, elem_of_map_to_list. done.
Qed.

Lemma deref_lookup s k e :
  consistent s → keysToTimeAndValue_ s !! k = Some e →
  deref (keysToTimeAndValue_ s) (keyAddr e) = Some k.
Proof.
  intros Hc Hk. destruct (deref_is_Some _ _ _ Hk) as [k' Hk'].
  rewrite Hk'. f_equal.
  apply deref_Some in Hk' as (e' & He' & Ha).
  exact (cons_addr s Hc _ _ _ _ He' Hk Ha).
Qed.

(** A recency entry determines the node it was made from. *)
Lemma consistent_entry_inj s k1 k2 e1 e2 :
  consistent s →
  keysToTimeAndValue_ s !! k1 = Some e1 →
  keysToTimeAndValue_ s !! k2 = Some e2 →
  tsAndKeys_of e1 = tsAndKeys_of e2 → k1 = k2.
Proof.
  intros Hc H1 H2 [= _ Ha]. exact (cons_addr s Hc _ _ _ _ H1 H2 Ha).
Qed.

(** *** The invariant: empty cache, removal of an entry, insertion *)

Lemma consistent_empty : consistent (@empty_cache Key _ _ Value).
Proof.
  split; simpl.
  - done.
  - intros k e. rewrite lookup_empty. done.
  - intros x. rewrite elem_of_nil. done.
  - intros k1 k2 e1 e2. rewrite lookup_empty. done.
  - rewrite map_size_empty. done.
Qed.

Lemma consistent_without s k e :
  consistent s → keysToTimeAndValue_ s !! k = Some e →
  consistent (without k e s).
Proof.
  intros Hc Hk. pose proof (cons_sorted s Hc) as Hs.
  split; simpl.
  - auto using TimeSetFacts.erase_sorted.
  - intros k' e'. rewrite lookup_delete_Some. intros [Hne Hk'].
    apply TimeSetFacts.elem_of_erase; [done|]. split.
    + exact (cons_primary s Hc _ _ Hk').
    + intros Heq. apply Hne. symmetry.
      exact (consistent_entry_inj s _ _ _ _ Hc Hk' Hk Heq).
  - intros x. rewrite TimeSetFacts.elem_of_erase by done. intros [Hx Hne].
    destruct (cons_recency s Hc x Hx) as (k' & e' & Hk' & <-).
    exists k', e'. split; [|done]. apply lookup_delete_Some. split; [|done].
    intros <-. apply Hne. congruence.
  - intros k1 k2 e1 e2. rewrite !lookup_delete_Some.
    intros [_ H1] [_ H2]. exact (cons_addr s Hc _ _ _ _ H1 H2).
  - pose proof (cons_primary s Hc _ _ Hk) as Hin.
    pose proof (TimeSetFacts.erase_length _ _ Hin) as Hlen.
    rewrite map_size_delete_Some by eauto.
    rewrite <- (cons_size s Hc). lia.
Qed.

Lemma consistent_with_entry s k a ts v :
  consistent s → keysToTimeAndValue_ s !! k = None →
  fresh a (keysToTimeAndValue_ s) →
  consistent (with_entry k a ts v s).
Proof.
  intros Hc Hk Hfresh. split; simpl.
  - apply TimeSetFacts.insert_sorted, (cons_sorted s Hc).
  - intros k' e'. rewrite lookup_insert_Some, TimeSetFacts.elem_of_insert.
    intros [[<- <-]|[Hne Hk']]; [by left|right].
    exact (cons_primary s Hc _ _ Hk').
  - intros x. rewrite TimeSetFacts.elem_of_insert. intros [->|Hx].
    + exists k, (mkEntry a (ts, v)). rewrite lookup_insert_eq. done.
    + destruct (cons_recency s Hc x Hx) as (k' & e' & Hk' & <-).
      exists k', e'. split; [|done]. rewrite lookup_insert_ne; [done|].
      intros <-. congruence.
  - intros k1 k2 e1 e2. rewrite !lookup_insert_Some.
    intros [[<- <-]|[Hne1 H1]] [[<- <-]|[Hne2 H2]]; simpl; try done.
    + intros Ha. destruct (Hfresh _ _ H2). done.
    + intros Ha. destruct (Hfresh _ _ H1). done.
    + exact (cons_addr s Hc _ _ _ _ H1 H2).
  - rewrite map_size_insert_None by done.
    rewrite TimeSetFacts.insert_length; [by rewrite (cons_size s Hc)|].
    intros Hin. destruct (cons_recency s Hc _ Hin) as (k' & e' & Hk' & [= _ Ha]).
    exact (Hfresh _ _ Hk' Ha).
Qed.

(** *** The eviction pass *)

Lemma evict_test currentTs ts size :
  (ts + maxTime_ <? currentTs) || (maxElements_ <? N.of_nat size)%N = true
  ↔ stale currentTs ts ∨ over_capacity size.
Proof.
  unfold stale, over_capacity.
  rewrite orb_true_iff, Z.ltb_lt, N.ltb_lt. done.
Qed.

(** The node behind the oldest pair of a consistent cache. *)
Lemma oldest_entry s x rest :
  consistent s → timeToKeys_ s = x :: rest →
  ∃ k e, keysToTimeAndValue_ s !! k = Some e
         ∧ tsAndKeys_of e = x
         ∧ deref (keysToTimeAndValue_ s) x.2 = Some k
         ∧ timeToKeys_ (without k e s) = rest.
Proof.
  intros Hc Hl.
  destruct (cons_recency s Hc x) as (k & e & Hk & Hx).
  { rewrite Hl. apply elem_of_cons. by left. }
  exists k, e. split_and!; try done.
  - rewrite <- Hx. simpl. by apply deref_lookup.
  - unfold without. simpl. rewrite Hl, Hx. simpl.
    destruct (decide (x = x)); done.
Qed.

(** One iteration that evicts. *)
Lemma cleanup_loop_evict currentTs budget s x rest k e :
  timeToKeys_ s = x :: rest →
  stale currentTs x.1 ∨ over_capacity (length (timeToKeys_ s)) →
  keysToTimeAndValue_ s !! k = Some e →
  deref (keysToTimeAndValue_ s) x.2 = Some k →
  timeToKeys_ (without k e s) = rest →
  cleanup_loop currentTs (S budget) s = cleanup_loop currentTs budget (without k e s).
Proof.
  intros Hl Hev Hk Hderef Hrest. simpl. rewrite Hl.
  apply evict_test in Hev. rewrite Hl in Hev. rewrite Hev, Hderef.
  unfold map_erase. simpl. rewrite Hk. simpl.
  unfold without in *. simpl in *. by rewrite Hrest.
Qed.

(** One iteration that stops. *)
Lemma cleanup_loop_stop currentTs budget s x rest :
  timeToKeys_ s = x :: rest →
  ¬ stale currentTs x.1 → ¬ over_capacity (length (timeToKeys_ s)) →
  cleanup_loop currentTs (S budget) s = Ok s.
Proof.
  intros Hl Hns Hno. simpl. rewrite Hl.
  destruct (_ || _) eqn:Hev; [|done].
  apply evict_test in Hev. rewrite Hl in Hno. tauto.
Qed.

Lemma cleanup_loop_empty currentTs budget s :
  timeToKeys_ s = [] → cleanup_loop currentTs budget s = Ok s.
Proof. intros Hl. destruct budget; simpl; [done|]. by rewrite Hl. Qed.

(** What a pass with a given budget does to a consistent cache: it removes
    the [n] oldest pairs, [n] at most the budget, and the nodes they point
    to; each of them was, when its turn came, the minimum of the set and
    either stale or in excess; and when the pass ends before the budget is
    used up, the set is empty or its oldest pair is neither. *)
Lemma cleanup_loop_spec currentTs budget s :
  consistent s →
  ∃ (n : nat) s',
    cleanup_loop currentTs budget s = Ok s'
    ∧ consistent s'
    ∧ (n ≤ budget)%nat
    ∧ timeToKeys_ s' = drop n (timeToKeys_ s)
    ∧ (∀ k e, keysToTimeAndValue_ s' !! k = Some e
              ↔ keysToTimeAndValue_ s !! k = Some e
                ∧ tsAndKeys_of e ∈ drop n (timeToKeys_ s))
    ∧ (∀ i x, (i < n)%nat → timeToKeys_ s !! i = Some x →
              (∀ y, y ∈ drop (S i) (timeToKeys_ s) → TimeSet.pair_lt x y)
              ∧ (stale currentTs x.1
                 ∨ over_capacity (length (timeToKeys_ s) - i)))
    ∧ ((n < budget)%nat →
       match timeToKeys_ s' with
       | [] => True
       | x :: _ =>
           ¬ stale currentTs x.1 ∧ ¬ over_capacity (length (timeToKeys_ s'))
       end).
Proof.
  clear valueObtainer_ moved_from.
  revert s. induction budget as [|budget IH]; intros s Hc.
  { exists 0%nat, s. simpl. split_and!; try done; try lia.
    intros k e. split; [|tauto]. intros Hk. split; [done|].
    exact (cons_primary s Hc _ _ Hk). }
  destruct (timeToKeys_ s) as [|x rest] eqn:Hl.
  { exists 0%nat, s. rewrite cleanup_loop_empty by done. rewrite Hl. simpl.
    split_and!; try done; try lia.
    intros k e. split; [|tauto]. intros Hk.
    pose proof (cons_primary s Hc _ _ Hk) as Hin. rewrite Hl in Hin.
    by apply elem_of_nil in Hin. }
  destruct (decide (stale currentTs x.1 ∨ over_capacity (length (timeToKeys_ s))))
    as [Hev|Hstop].
  - destruct (oldest_entry s x rest Hc Hl) as (k0 & e0 & Hk0 & Hx & Hderef & Hrest).
    pose proof (consistent_without s k0 e0 Hc Hk0) as Hc1.
    destruct (IH _ Hc1) as (n & s' & Hrun & Hc' & Hn & Hdrop & Hprim & Hevicted & Hend).
    pose proof (cons_sorted s Hc) as Hsorted. rewrite Hl in Hsorted.
    exists (S n), s'.
    rewrite (cleanup_loop_evict currentTs budget s x rest k0 e0 Hl Hev Hk0 Hderef Hrest).
    rewrite Hrest in Hdrop, Hevicted. rewrite Hrest in Hprim.
    split_and!; try done; try lia.
    + intros k e. rewrite Hprim. simpl.
      rewrite lookup_delete_Some. split; [tauto|].
      intros [Hk Hin]. split_and!; try done.
      intros <-. rewrite Hk0 in Hk. injection Hk as <-.
      rewrite Hx in Hin. apply (subseteq_drop n rest) in Hin.
      destruct Hsorted as [Hmin _].
      exact (TimeSetFacts.sorted_not_in _ _ Hmin Hin).
    + intros i y Hi Hy. destruct i as [|i]; simpl in Hy.
      * injection Hy as <-. simpl. split.
        -- intros y Hy. rewrite drop_0 in Hy.
           exact (TimeSetFacts.sorted_head_min _ _ _ Hsorted Hy).
        -- rewrite Hl in Hev. exact Hev.
      * simpl. apply Hevicted; [lia|done].
    + intros Hlt. apply Hend. lia.
  - exists 0%nat, s. rewrite Hl in Hstop.
    rewrite (cleanup_loop_stop currentTs budget s x rest Hl) by (rewrite ?Hl; tauto).
    rewrite Hl. simpl. split_and!; try done; try lia.
    + intros k e. split; [|tauto]. intros Hk. split; [done|].
      rewrite <- Hl. exact (cons_primary s Hc _ _ Hk).
    + intros _. tauto.
Qed.

Lemma cleanup_loop_length currentTs budget s s' :
  consistent s → cleanup_loop currentTs budget s = Ok s' →
  (length (timeToKeys_ s') ≤ length (timeToKeys_ s))%nat.
Proof.
  intros Hc Hrun.
  destruct (cleanup_loop_spec currentTs budget s Hc)
    as (n & s'' & Hrun' & _ & _ & Hdrop & _).
  rewrite Hrun in Hrun'. injection Hrun' as <-.
  rewrite Hdrop, length_drop. lia.
Qed.

(** A pass with a positive budget brings a cache that exceeds its capacity
    by one entry back within capacity. *)
Lemma cleanup_loop_capacity currentTs budget s s' :
  consistent s → (0 < budget)%nat →
  ¬ over_capacity (length (timeToKeys_ s) - 1) →
  cleanup_loop currentTs budget s = Ok s' →
  ¬ over_capacity (length (timeToKeys_ s')).
Proof.
  intros Hc Hpos Hcap Hrun.
  destruct (cleanup_loop_spec currentTs budget s Hc)
    as (n & s'' & Hrun' & _ & Hn & Hdrop & _ & Hevicted & Hend).
  rewrite Hrun in Hrun'. injection Hrun' as <-.
  unfold over_capacity in *.
  destruct (decide (n < budget)%nat) as [Hlt|Hge].
  - specialize (Hend Hlt). destruct (timeToKeys_ s') as [|x l]; simpl; [lia|].
    simpl in Hend. tauto.
  - rewrite Hdrop, length_drop. lia.
Qed.

(** A pass with a positive budget evicts at least one entry of a cache that
    exceeds its capacity. *)
Lemma cleanup_loop_progress currentTs budget s s' :
  consistent s → (0 < budget)%nat →
  over_capacity (length (timeToKeys_ s)) →
  cleanup_loop currentTs budget s = Ok s' →
  (length (timeToKeys_ s') < length (timeToKeys_ s))%nat.
Proof.
  intros Hc Hpos Hover Hrun.
  destruct (cleanup_loop_spec currentTs budget s Hc)
    as (n & s'' & Hrun' & _ & Hn & Hdrop & _ & _ & Hend).
  rewrite Hrun in Hrun'. injection Hrun' as <-.
  unfold over_capacity in *.
  destruct n as [|n].
  - specialize (Hend Hpos). rewrite Hdrop, drop_0 in Hend.
    destruct (timeToKeys_ s) as [|x l]; simpl in *; [lia|tauto].
  - rewrite Hdrop, length_drop. lia.
Qed.

(** *** [erase] *)

Lemma erase_present s keys e :
  consistent s → keysToTimeAndValue_ s !! keys = Some e →
  erase keys s = Ok (without keys e s).
Proof.
  intros Hc Hk. unfold erase. rewrite Hk.
  rewrite (TimeSetFacts.erase_count (tsAndKeys_of e)); [done|].
  exact (cons_primary s Hc _ _ Hk).
Qed.

Lemma erase_absent s keys :
  keysToTimeAndValue_ s !! keys = None → erase keys s = Ok s.
Proof. intros Hk. unfold erase. by rewrite Hk. Qed.

Lemma erase_lookup s keys s' :
  erase keys s = Ok s' → keysToTimeAndValue_ s' !! keys = None.
Proof.
  unfold erase. destruct (keysToTimeAndValue_ s !! keys) as [e|] eqn:Hk.
  - destruct (_ =? _)%nat; simpl; [|done].
    intros [= <-]. simpl. apply lookup_delete_eq.
  - by intros [= <-].
Qed.

(** *** The first critical section of [get] *)

Lemma get_lookup_fresh currentTs keys s e :
  keysToTimeAndValue_ s !! keys = Some e →
  ¬ stale currentTs (timeAndValue e).1 →
  get_lookup currentTs keys s = Ok (Hit (timeAndValue e).2).
Proof.
  intros Hk Hfresh. unfold get_lookup. rewrite Hk.
  unfold stale in Hfresh.
  destruct (_ >=? _) eqn:Hge; [done|].
  rewrite Z.geb_leb, Z.leb_gt in Hge. lia.
Qed.

Lemma get_lookup_stale currentTs keys s e :
  consistent s →
  keysToTimeAndValue_ s !! keys = Some e →
  stale currentTs (timeAndValue e).1 →
  get_lookup currentTs keys s = Ok (Miss (without keys e s)).
Proof.
  intros Hc Hk Hstale. unfold get_lookup. rewrite Hk.
  unfold stale in Hstale.
  destruct (_ >=? _) eqn:Hge.
  { rewrite Z.geb_leb, Z.leb_le in Hge. lia. }
  rewrite (TimeSetFacts.erase_count (tsAndKeys_of e)); [done|].
  exact (cons_primary s Hc _ _ Hk).
Qed.

Lemma get_lookup_absent currentTs keys s :
  keysToTimeAndValue_ s !! keys = None →
  get_lookup currentTs keys s = Ok (Miss s).
Proof. intros Hk. unfold get_lookup. by rewrite Hk. Qed.

(** *** The second critical section of [get] *)

Lemma get_fill_race currentTs keys value ins s e :
  keysToTimeAndValue_ s !! keys = Some e →
  get_fill currentTs keys value ins s = Ok (Returned value, s).
Proof. intros Hk. unfold get_fill. by rewrite Hk. Qed.

Lemma get_fill_throws currentTs keys value ins s ex :
  keysToTimeAndValue_ s !! keys = None →
  insertion_throws ins ex →
  get_fill currentTs keys value ins s = Ok (Thrown ex, s).
Proof.
  intros Hk Hthrow. unfold get_fill. rewrite Hk. destruct s as [m l].
  simpl in *. destruct Hthrow as [->|[[a ->] ->]].
  - by rewrite delete_id.
  - rewrite lookup_insert_eq. by rewrite delete_insert_id.
Qed.

Lemma get_fill_inserts currentTs keys value ins s a :
  keysToTimeAndValue_ s !! keys = None →
  primaryInsert ins = inr a → recencyInsert ins = None →
  get_fill currentTs keys value ins s
  = cleanupWithoutLocking currentTs 3 (with_entry keys a currentTs value s)
    ≫= fun s' => Ok (Returned (moved_from value), s').
Proof.
  intros Hk Hp Hr. unfold get_fill. rewrite Hk, Hp, Hr.
  by rewrite lookup_insert_eq.
Qed.

Lemma with_entry_length s k a ts v :
  consistent s → fresh a (keysToTimeAndValue_ s) →
  length (timeToKeys_ (with_entry k a ts v s)) = S (length (timeToKeys_ s)).
Proof.
  intros Hc Hfresh. simpl. apply TimeSetFacts.insert_length.
  intros Hin. destruct (cons_recency s Hc _ Hin) as (k' & e' & Hk' & [= _ Ha]).
  exact (Hfresh _ _ Hk' Ha).
Qed.

Lemma get_fill_consistent currentTs keys value ins s :
  consistent s →
  (∀ a, primaryInsert ins = inr a → fresh a (keysToTimeAndValue_ s)) →
  ∃ o s', get_fill currentTs keys value ins s = Ok (o, s')
          ∧ consistent s'
          ∧ (within_capacity s → within_capacity s').
Proof.
  intros Hc Hfresh.
  destruct (keysToTimeAndValue_ s !! keys) as [e|] eqn:Hk.
  { rewrite (get_fill_race _ _ _ _ _ e Hk). by eexists _, _. }
  destruct (primaryInsert ins) as [ex|a] eqn:Hp.
  { rewrite (get_fill_throws _ _ _ _ _ ex Hk) by (by left). by eexists _, _. }
  destruct (recencyInsert ins) as [ex|] eqn:Hr.
  { rewrite (get_fill_throws _ _ _ _ _ ex Hk) by (right; eauto).
    by eexists _, _. }
  rewrite (get_fill_inserts _ _ _ _ _ a Hk Hp Hr).
  specialize (Hfresh a eq_refl).
  pose proof (consistent_with_entry s keys a currentTs value Hc Hk Hfresh) as Hc1.
  destruct (cleanup_loop_spec currentTs (N.to_nat 3) _ Hc1)
    as (n & s' & Hrun & Hc' & _).
  unfold cleanupWithoutLocking. rewrite Hrun. simpl.
  eexists _, _. split; [done|]. split; [done|]. intros Hcap.
  eapply cleanup_loop_capacity; [exact Hc1| |..|exact Hrun]; [simpl; lia|].
  rewrite with_entry_length by done.
  replace (S (length (timeToKeys_ s)) - 1)%nat with (length (timeToKeys_ s)) by lia.
  done.
Qed.

(** *** Whole operations *)

Lemma without_capacity s k e :
  consistent s → keysToTimeAndValue_ s !! k = Some e →
  within_capacity s → within_capacity (without k e s).
Proof.
  intros Hc Hk Hcap.
  pose proof (TimeSetFacts.erase_length _ _ (cons_primary s Hc _ _ Hk)) as Hlen.
  unfold within_capacity, over_capacity in *. simpl. lia.
Qed.

Lemma get_lookup_consistent currentTs keys s :
  consistent s →
  ∃ l, get_lookup currentTs keys s = Ok l
       ∧ match l with
         | Hit _ => True
         | Miss s1 =>
             consistent s1
             ∧ (within_capacity s → within_capacity s1)
             ∧ keysToTimeAndValue_ s1 = delete keys (keysToTimeAndValue_ s)
         end.
Proof.
  intros Hc.
  destruct (keysToTimeAndValue_ s !! keys) as [e|] eqn:Hk.
  - destruct (decide (stale currentTs (timeAndValue e).1)) as [Hst|Hfr].
    + rewrite (get_lookup_stale _ _ _ e) by done.
      eexists. split; [done|].
      split_and!; [by apply consistent_without|by apply without_capacity|done].
    + rewrite (get_lookup_fresh _ _ _ e) by done. by eexists.
  - rewrite get_lookup_absent by done.
    eexists. split; [done|]. split_and!; [done..|]. by rewrite delete_id.
Qed.

Lemma get_consistent currentTs keys ins s w :
  consistent s → alloc_ok (OpGet currentTs keys ins) s →
  ∃ o s', get currentTs keys ins s w
          = Ok (o, s', match get_lookup currentTs keys s with
                       | Ok (Miss _) => (valueObtainer_ keys w).2
                       | _ => w
                       end)
          ∧ consistent s'
          ∧ (within_capacity s → within_capacity s').
Proof.
  intros Hc Halloc. simpl in Halloc.
  destruct (get_lookup_consistent currentTs keys s Hc) as (l & Hl & Hpost).
  unfold get. rewrite Hl. simpl. destruct l as [v|s1].
  { by eexists _, _. }
  destruct Hpost as (Hc1 & Hcap1 & Hm1).
  destruct (valueObtainer_ keys w) as [[ex|value] w'].
  { by eexists _, _. }
  destruct (get_fill_consistent currentTs keys value ins s1 Hc1)
    as (o & s' & Hfill & Hc' & Hcap').
  { rewrite Hm1. exact Halloc. }
  rewrite Hfill. simpl. eexists _, _. split_and!; [done..|tauto].
Qed.

Lemma cleanup_consistent currentTs maxOperations s :
  consistent s →
  ∃ s', cleanup currentTs maxOperations s = Ok s'
        ∧ consistent s'
        ∧ (within_capacity s → within_capacity s').
Proof.
  intros Hc. unfold cleanup, cleanupWithoutLocking.
  destruct (cleanup_loop_spec currentTs (N.to_nat maxOperations) s Hc)
    as (n & s' & Hrun & Hc' & _).
  exists s'. split; [done|]. split; [done|].
  pose proof (cleanup_loop_length _ _ _ _ Hc Hrun).
  unfold within_capacity, over_capacity in *. lia.
Qed.

Lemma erase_consistent keys s :
  consistent s →
  ∃ s', erase keys s = Ok s'
        ∧ consistent s'
        ∧ (within_capacity s → within_capacity s').
Proof.
  intros Hc. destruct (keysToTimeAndValue_ s !! keys) as [e|] eqn:Hk.
  - rewrite (erase_present _ _ e) by done.
    eexists. split; [done|].
    split; [by apply consistent_without|by apply without_capacity].
  - rewrite erase_absent by done. by eexists.
Qed.

Lemma run_consistent op s w :
  consistent s → alloc_ok op s →
  ∃ s' w', run op s w = Ok (s', w')
           ∧ consistent s'
           ∧ (within_capacity s → within_capacity s').
Proof.
  intros Hc Halloc.
  destruct op as [currentTs keys ins|currentTs maxOperations|keys].
  - destruct (get_consistent currentTs keys ins s w Hc Halloc)
      as (o & s' & Hget & Hc').
    simpl. rewrite Hget. simpl. by eexists _, _.
  - destruct (cleanup_consistent currentTs maxOperations s Hc) as (s' & Hrun & Hc').
    simpl. rewrite Hrun. simpl. by eexists _, _.
  - destruct (erase_consistent keys s Hc) as (s' & Hrun & Hc').
    simpl. rewrite Hrun. simpl. by eexists _, _.
Qed.

Lemma reachable_by_consistent allowed s w :
  reachable_by allowed s w → consistent s ∧ within_capacity s.
Proof.
  induction 1 as [w|s w op s' w' _ [IHc IHcap] _ Halloc Hrun].
  - split; [apply consistent_empty|].
    unfold within_capacity, over_capacity. simpl. lia.
  - destruct (run_consistent op s w IHc Halloc) as (s'' & w'' & Hrun' & Hc' & Hcap').
    rewrite Hrun in Hrun'. injection Hrun' as <- <-. auto.
Qed.

(** ** The properties of the specification *)

Lemma consistent_corresponds s : consistent s → corresponds s.
Proof.
  intros Hc. split_and!.
  - apply TimeSetFacts.sorted_NoDup, (cons_sorted s Hc).
  - intros k e Hk. exists (tsAndKeys_of e). split.
    + split_and!; [exact (cons_primary s Hc _ _ Hk)|by apply deref_lookup|done].
    + intros y Hy Hderef.
      destruct (cons_recency s Hc y Hy) as (k' & e' & Hk' & <-).
      simpl in Hderef. rewrite (deref_lookup s k' e' Hc Hk') in Hderef.
      injection Hderef as ->. congruence.
  - intros x Hx. destruct (cons_recency s Hc x Hx) as (k & e & Hk & <-).
    exists k, e. split_and!; [by apply deref_lookup|done..].
Qed.

(** C1. Index consistency: in every state that the single-threaded cache
    reaches from the empty cache through completed [get], [cleanup] and
    [erase] calls, the recency index has no duplicates, every key of the
    primary index is pointed to by exactly one pair of the recency index,
    which carries the timestamp of the key's entry, and every pair of the
    recency index points to a key of the primary index whose entry has the
    pair's timestamp.  Moreover no assertion fails: every further public
    operation completes, again in such a state. *)
Theorem index_consistency s w :
  reachable s w →
  corresponds s
  ∧ ∀ op, alloc_ok op s →
      ∃ s' w', run op s w = Ok (s', w') ∧ corresponds s'.
Proof.
  intros Hreach. apply reachable_by_consistent in Hreach as [Hc _].
  split; [by apply consistent_corresponds|].
  intros op Halloc.
  destruct (run_consistent op s w Hc Halloc) as (s' & w' & Hrun & Hc' & _).
  exists s', w'. auto using consistent_corresponds.
Qed.

Lemma get_hit currentTs keys ins s w e :
  keysToTimeAndValue_ s !! keys = Some e →
  ¬ stale currentTs (timeAndValue e).1 →
  get currentTs keys ins s w = Ok (Returned (timeAndValue e).2, s, w).
Proof.
  intros Hk Hfresh. unfold get.
  by rewrite (get_lookup_fresh _ _ _ e Hk Hfresh).
Qed.

(** C7. Fresh hit: when the primary index holds the key with
    [timestamp + maxAge >= currentTime], the sum being within the range of
    the 64-bit ticks, [get] returns the stored value and leaves the cache as
    it was: both indexes are the same, no eviction pass has run, and the
    obtainer was not called (its environment is the same, whatever the
    obtainer is). *)
Theorem fresh_hit_frame currentTs keys ins s w e :
  keysToTimeAndValue_ s !! keys = Some e →
  age_sum_ok (timeAndValue e).1 →
  (timeAndValue e).1 + maxTime_ >= currentTs →
  get_lookup currentTs keys s = Ok (Hit (timeAndValue e).2)
  ∧ get currentTs keys ins s w = Ok (Returned (timeAndValue e).2, s, w).
Proof.
  intros Hk _ Hfresh.
  assert (¬ stale currentTs (timeAndValue e).1) as Hns by (unfold stale; lia).
  split; [by apply get_lookup_fresh|by apply get_hit].
Qed.

Lemma no_pair_for_absent_key s keys x :
  keysToTimeAndValue_ s !! keys = None →
  deref (keysToTimeAndValue_ s) x ≠ Some keys.
Proof.
  intros Hk Hderef. apply deref_Some in Hderef as (e & He & _). congruence.
Qed.

Lemma get_lookup_miss currentTs keys s s1 :
  get_lookup currentTs keys s = Ok (Miss s1) →
  keysToTimeAndValue_ s1 !! keys = None.
Proof.
  unfold get_lookup. destruct (keysToTimeAndValue_ s !! keys) as [e|] eqn:Hk.
  - destruct (_ >=? _); [done|]. destruct (_ =? _)%nat; simpl; [|done].
    intros [= <-]. simpl. apply lookup_delete_eq.
  - by intros [= <-].
Qed.

(** What the code does on the miss path: when the key is absent at the
    re-check and both insertions succeed, the node and its pair are inserted
    with the current timestamp, the eviction pass runs, and the call returns
    the variable that the value was moved out of; when the key is present at
    the re-check the obtained value is returned and the cache is not
    touched. *)
Lemma get_miss_postcondition currentTs keys ins s w s1 value w' :
  get_lookup currentTs keys s = Ok (Miss s1) →
  valueObtainer_ keys w = (inr value, w') →
  (∀ a, primaryInsert ins = inr a → recencyInsert ins = None →
        keysToTimeAndValue_ (with_entry keys a currentTs value s1) !! keys
        = Some (mkEntry a (currentTs, value))
        ∧ (currentTs, a) ∈ timeToKeys_ (with_entry keys a currentTs value s1)
        ∧ get currentTs keys ins s w
          = cleanupWithoutLocking currentTs 3
              (with_entry keys a currentTs value s1)
            ≫= (fun s' => Ok (Returned (moved_from value), s', w')))
  ∧ (∀ s2 e, keysToTimeAndValue_ s2 !! keys = Some e →
             get_fill currentTs keys value ins s2 = Ok (Returned value, s2)).
Proof.
  intros Hl Hobt. split.
  - intros a Hp Hr. split_and!.
    + simpl. apply lookup_insert_eq.
    + simpl. apply TimeSetFacts.elem_of_insert. by left.
    + unfold get. rewrite Hl. simpl. rewrite Hobt.
      rewrite (get_fill_inserts _ _ _ _ _ a) by eauto using get_lookup_miss.
      by destruct (cleanupWithoutLocking _ _ _).
  - intros s2 e Hk. by apply (get_fill_race _ _ _ _ _ e).
Qed.

(** When moving a value leaves it as it was, [get] returns on a miss what
    the obtainer produced. *)
Lemma get_miss_returns_copyable_value currentTs keys ins s w s1 value w' o s' :
  moved_from value = value →
  get_lookup currentTs keys s = Ok (Miss s1) →
  valueObtainer_ keys w = (inr value, w') →
  get currentTs keys ins s w = Ok (Returned o, s', w') → o = value.
Proof.
  intros Hcopy Hl Hobt. unfold get. rewrite Hl. simpl. rewrite Hobt.
  unfold get_fill. rewrite (get_lookup_miss _ _ _ _ Hl).
  destruct (primaryInsert ins) as [ex|a]; simpl; [done|].
  rewrite lookup_insert_eq.
  destruct (recencyInsert ins) as [ex|]; simpl; [done|].
  destruct (cleanupWithoutLocking _ _ _); simpl; [|done].
  intros [= <- _]. done.
Qed.

(** C10. When [get] finds a stale entry for the key and the obtainer then
    throws, the exception reaches the caller and the cache is left in the
    state in which the stale entry is erased from both indexes, which is not
    the state before the call; the next [get] for the key misses. *)
Theorem stale_removal_survives_obtainer_failure currentTs keys ins s w e ex w' :
  consistent s →
  keysToTimeAndValue_ s !! keys = Some e →
  (timeAndValue e).1 + maxTime_ < currentTs →
  valueObtainer_ keys w = (inl ex, w') →
  get currentTs keys ins s w = Ok (Thrown ex, without keys e s, w')
  ∧ keysToTimeAndValue_ (without keys e s) !! keys = None
  ∧ (tsAndKeys_of e ∉ timeToKeys_ (without keys e s))
  ∧ (∀ x, x ∈ timeToKeys_ (without keys e s) →
          deref (keysToTimeAndValue_ (without keys e s)) x.2 ≠ Some keys)
  ∧ without keys e s ≠ s
  ∧ ∀ currentTs', get_lookup currentTs' keys (without keys e s)
                  = Ok (Miss (without keys e s)).
Proof.
  intros Hc Hk Hstale Hobt.
  assert (keysToTimeAndValue_ (without keys e s) !! keys = None) as Hgone.
  { simpl. apply lookup_delete_eq. }
  split_and!.
  - unfold get. rewrite (get_lookup_stale _ _ _ e) by done. simpl.
    by rewrite Hobt.
  - done.
  - simpl. apply TimeSetFacts.erase_gone, (cons_sorted s Hc).
  - intros x _. by apply no_pair_for_absent_key.
  - intros Heq. rewrite Heq in Hgone. congruence.
  - intros currentTs'. by apply get_lookup_absent.
Qed.

(** C6. When the insertion step of [get] throws, in the primary index or in
    the recency index, the cache is exactly as it was before the insertion
    (the node already put into the primary index is erased again, and no
    pair of the recency index points to the key) and the exception reaches
    the caller of [get]. *)
Theorem insertion_failure_rolls_back currentTs keys ins ex :
  insertion_throws ins ex →
  (∀ s value,
     keysToTimeAndValue_ s !! keys = None →
     get_fill currentTs keys value ins s = Ok (Thrown ex, s))
  ∧ (∀ s w s1 value w',
       get_lookup currentTs keys s = Ok (Miss s1) →
       valueObtainer_ keys w = (inr value, w') →
       get currentTs keys ins s w = Ok (Thrown ex, s1, w')
       ∧ keysToTimeAndValue_ s1 !! keys = None
       ∧ ∀ x, x ∈ timeToKeys_ s1 →
              deref (keysToTimeAndValue_ s1) x.2 ≠ Some keys).
Proof.
  intros Hthrow. split.
  - intros s value Hk. by apply get_fill_throws.
  - intros s w s1 value w' Hl Hobt.
    pose proof (get_lookup_miss _ _ _ _ Hl) as Hk1.
    split_and!; [|done|].
    + unfold get. rewrite Hl. simpl. rewrite Hobt.
      by rewrite (get_fill_throws _ _ _ _ _ ex Hk1 Hthrow).
    + intros x _. by apply no_pair_for_absent_key.
Qed.

(** C8. [erase] removes the entry of the key from both indexes when there
    is one, whatever its age and whatever the occupancy, and changes nothing
    otherwise; it leaves the other entries alone; a second [erase] of the
    same key completes and leaves the state of the first. *)
Theorem erase_semantics keys s :
  consistent s →
  (∀ e, keysToTimeAndValue_ s !! keys = Some e →
        erase keys s = Ok (without keys e s)
        ∧ keysToTimeAndValue_ (without keys e s) !! keys = None
        ∧ (∀ k, k ≠ keys →
                keysToTimeAndValue_ (without keys e s) !! k
                = keysToTimeAndValue_ s !! k)
        ∧ (∀ x, x ∈ timeToKeys_ (without keys e s)
                ↔ x ∈ timeToKeys_ s ∧ x ≠ tsAndKeys_of e))
  ∧ (keysToTimeAndValue_ s !! keys = None → erase keys s = Ok s)
  ∧ (∃ s', erase keys s = Ok s' ∧ erase keys s' = Ok s')
  ∧ (erase keys s ≫= erase keys) = erase keys s.
Proof.
  intros Hc.
  assert (∃ s', erase keys s = Ok s') as [s' Hrun].
  { destruct (keysToTimeAndValue_ s !! keys) as [e|] eqn:Hk.
    - rewrite (erase_present _ _ e) by done. by eexists.
    - rewrite erase_absent by done. by eexists. }
  assert (∃ s', erase keys s = Ok s' ∧ erase keys s' = Ok s') as Htwice.
  { exists s'. split; [done|].
    apply erase_absent. by apply (erase_lookup s). }
  clear s' Hrun.
  split_and!.
  - intros e Hk. split_and!.
    + by apply erase_present.
    + simpl. apply lookup_delete_eq.
    + intros k Hne. simpl. by apply lookup_delete_ne.
    + intros x. simpl. apply TimeSetFacts.elem_of_erase, (cons_sorted s Hc).
  - apply erase_absent.
  - done.
  - destruct Htwice as (s' & -> & Hsecond). done.
Qed.

(** C4, as the code has it.  On a consistent cache in which no sum
    [timestamp + maxAge] overflows the 64-bit ticks, a pass with budget
    [maxOperations] completes after evicting some number [n] of entries,
    [n] at most [maxOperations]: the pairs removed from the recency index
    are its [n] oldest ones and the primary index keeps exactly the nodes
    whose pair remains.  Each evicted pair was, at its turn, the minimum of
    the recency index and was stale or the size of the index exceeded
    [maxElements_].  When the pass ends with budget left, the recency index
    is empty or its oldest pair is neither stale nor in excess, and nothing
    behind it has been touched.  The minimum is that of the order of the
    set: by timestamp, then by the address of the key's node. *)
Theorem cleanup_eviction_logic currentTs maxOperations s :
  consistent s →
  sums_ok s →
  ∃ (n : nat) s',
    cleanupWithoutLocking currentTs maxOperations s = Ok s'
    ∧ cleanup currentTs maxOperations s = Ok s'
    ∧ (N.of_nat n ≤ maxOperations)%N
    ∧ timeToKeys_ s' = drop n (timeToKeys_ s)
    ∧ (∀ k e, keysToTimeAndValue_ s' !! k = Some e
              ↔ keysToTimeAndValue_ s !! k = Some e
                ∧ tsAndKeys_of e ∈ drop n (timeToKeys_ s))
    ∧ (∀ i x, (i < n)%nat → timeToKeys_ s !! i = Some x →
              (∀ y, y ∈ drop (S i) (timeToKeys_ s) → TimeSet.pair_lt x y)
              ∧ (stale currentTs x.1
                 ∨ over_capacity (length (timeToKeys_ s) - i)))
    ∧ ((N.of_nat n < maxOperations)%N →
       match timeToKeys_ s' with
       | [] => True
       | x :: _ =>
           ¬ stale currentTs x.1 ∧ ¬ over_capacity (length (timeToKeys_ s'))
       end).
Proof.
  intros Hc _. unfold cleanup, cleanupWithoutLocking.
  destruct (cleanup_loop_spec currentTs (N.to_nat maxOperations) s Hc)
    as (n & s' & Hrun & _ & Hn & Hdrop & Hprim & Hevicted & Hend).
  exists n, s'. split_and!; try done; try lia.
  intros Hlt. apply Hend. lia.
Qed.

(** The number of entries, counted in either index. *)
Lemma reachable_by_size allowed s w :
  reachable_by allowed s w →
  length (timeToKeys_ s) = size (keysToTimeAndValue_ s)
  ∧ (N.of_nat (size (keysToTimeAndValue_ s)) ≤ maxElements_)%N.
Proof.
  intros Hreach. apply reachable_by_consistent in Hreach as [Hc Hcap].
  pose proof (cons_size s Hc) as Hsize. split; [done|].
  unfold within_capacity, over_capacity in Hcap. lia.
Qed.

(** C5. Capacity bound: after any sequence of completed [get] calls on a
    cache that starts empty, the number of entries (the same in both
    indexes) exceeds [maxElements_] by at most the eviction budget 3 of an
    insertion, and in fact by at most 1. *)
Theorem capacity_bound s w :
  reachable_by is_get s w →
  length (timeToKeys_ s) = size (keysToTimeAndValue_ s)
  ∧ (N.of_nat (size (keysToTimeAndValue_ s)) ≤ maxElements_ + 3)%N
  ∧ (N.of_nat (size (keysToTimeAndValue_ s)) ≤ maxElements_ + 1)%N
  ∧ (∀ keys a ts v,
       fresh a (keysToTimeAndValue_ s) →
       length (timeToKeys_ (with_entry keys a ts v s))
       = S (length (timeToKeys_ s)))
  ∧ (∀ currentTs s1,
       consistent s1 → over_capacity (length (timeToKeys_ s1)) →
       ∃ s', cleanupWithoutLocking currentTs 3 s1 = Ok s'
             ∧ (length (timeToKeys_ s') < length (timeToKeys_ s1))%nat).
Proof.
  intros Hreach. pose proof (reachable_by_consistent _ _ _ Hreach) as [Hc _].
  apply reachable_by_size in Hreach as [Hsize Hcap].
  split_and!; [done|lia..| |].
  - intros keys a ts v Hfresh. by apply with_entry_length.
  - intros currentTs s1 Hc1 Hover. unfold cleanupWithoutLocking.
    destruct (cleanup_loop_spec currentTs (N.to_nat 3) s1 Hc1)
      as (n & s' & Hrun & _).
    exists s'. split; [done|].
    eapply cleanup_loop_progress; [exact Hc1| |exact Hover|exact Hrun].
    simpl. lia.
Qed.

(** C3, as the code has it.  For a key cached with insertion time [T] and
    maximum age [D], the sum [T + D] being within the range of the 64-bit
    ticks, [get] at a time [T' <= T + D] returns the cached value, changes
    nothing and does not call the obtainer; [get] at a time [T' > T + D]
    erases the entry and calls the obtainer. *)
Theorem freshness_window currentTs keys ins s w e :
  consistent s →
  alloc_ok (OpGet currentTs keys ins) s →
  keysToTimeAndValue_ s !! keys = Some e →
  age_sum_ok (timeAndValue e).1 →
  (currentTs ≤ (timeAndValue e).1 + maxTime_ →
   get currentTs keys ins s w = Ok (Returned (timeAndValue e).2, s, w))
  ∧ (currentTs > (timeAndValue e).1 + maxTime_ →
     get_lookup currentTs keys s = Ok (Miss (without keys e s))
     ∧ ∃ o s', get currentTs keys ins s w
               = Ok (o, s', (valueObtainer_ keys w).2)).
Proof.
  intros Hc Halloc Hk _. split.
  - intros Hle. apply get_hit; [done|]. unfold stale. lia.
  - intros Hgt.
    assert (get_lookup currentTs keys s = Ok (Miss (without keys e s))) as Hl.
    { apply get_lookup_stale; [done..|]. unfold stale. lia. }
    split; [done|].
    destruct (get_consistent currentTs keys ins s w Hc Halloc)
      as (o & s' & Hget & _).
    rewrite Hl in Hget. eauto.
Qed.

End LruCacheProofs.

(** ** The eviction scenario *)

Section EvictionScenario.

Set Default Proof Using "Type".

Context {Key : Type} `{Countable Key}.
Context {Value Exn Env : Type}.
Variable moved_from : Value → Value.
Variable valueObtainer_ : Key → Env → (Exn + Value) * Env.

Local Abbreviation get :=
  (@get Key _ _ Value Exn Env moved_from 10 2 valueObtainer_).
Local Abbreviation cleanupWithoutLocking :=
  (@cleanupWithoutLocking Key _ _ Value 10 2).
Local Abbreviation get_lookup := (@get_lookup Key _ _ Value 10).

Lemma get_inserts currentTs keys a s w value w' s' :
  keysToTimeAndValue_ s !! keys = None →
  valueObtainer_ keys w = (inr value, w') →
  cleanupWithoutLocking currentTs 3 (with_entry keys a currentTs value s) = Ok s' →
  get currentTs keys (allocated a) s w = Ok (Returned (moved_from value), s', w').
Proof.
  intros Hk Hobt Hclean. unfold get.
  rewrite get_lookup_absent by done. simpl. rewrite Hobt.
  rewrite (get_fill_inserts _ _ _ _ _ _ _ _ a Hk) by done.
  rewrite Hclean. done.
Qed.

Variables (A B C : Key) (a b c : Z) (vA vB vC : Value) (w0 w1 w2 w3 : Env).

(** C9. Maximum age 10, at most 2 elements, three distinct keys A, B, C,
    whatever the addresses of their nodes and the values obtained.  [get] of
    A at time 0, of B at time 1 and of C at time 2 insert the three keys;
    the pass with budget 3 that follows the insertion of C evicts exactly
    the entry of A, the oldest one, and B and C stay; [get] of A at time 3
    then misses and calls the obtainer again. *)
Theorem eviction_scenario :
  A ≠ B → A ≠ C → B ≠ C →
  b ≠ a → c ≠ a → c ≠ b →
  valueObtainer_ A w0 = (inr vA, w1) →
  valueObtainer_ B w1 = (inr vB, w2) →
  valueObtainer_ C w2 = (inr vC, w3) →
  let sA := with_entry A a 0 vA empty_cache in
  let sAB := with_entry B b 1 vB sA in
  let sABC := with_entry C c 2 vC sAB in
  let sBC := without A (mkEntry a (0, vA)) sABC in
  get 0 A (allocated a) empty_cache w0 = Ok (Returned (moved_from vA), sA, w1)
  ∧ get 1 B (allocated b) sA w1 = Ok (Returned (moved_from vB), sAB, w2)
  ∧ cleanupWithoutLocking 2 3 sABC = Ok sBC
  ∧ get 2 C (allocated c) sAB w2 = Ok (Returned (moved_from vC), sBC, w3)
  ∧ (∀ k, is_Some (keysToTimeAndValue_ sBC !! k) ↔ k = B ∨ k = C)
  ∧ timeToKeys_ sBC = [(1, b); (2, c)]
  ∧ get_lookup 3 A sBC = Ok (Miss sBC)
  ∧ ∀ ins, alloc_ok (OpGet 3 A ins) sBC →
      ∃ o s', get 3 A ins sBC w3 = Ok (o, s', (valueObtainer_ A w3).2).
Proof.
  intros HAB HAC HBC Hba Hca Hcb HoA HoB HoC sA sAB sABC sBC.
  assert (consistent sA) as HcA.
  { apply consistent_with_entry; [apply consistent_empty|apply lookup_empty|].
    intros k e. simpl. by rewrite lookup_empty. }
  assert (keysToTimeAndValue_ sA !! B = None) as HkB.
  { simpl. rewrite lookup_insert_ne by done. apply lookup_empty. }
  assert (consistent sAB) as HcAB.
  { apply consistent_with_entry; [done..|].
    intros k e. simpl. rewrite lookup_insert_Some, lookup_empty.
    intros [[_ <-]|[_ ?]]; done. }
  assert (keysToTimeAndValue_ sAB !! C = None) as HkC.
  { simpl. rewrite !lookup_insert_ne by done. apply lookup_empty. }
  assert (consistent sABC) as HcABC.
  { apply consistent_with_entry; [done..|].
    intros k e. simpl. rewrite !lookup_insert_Some, lookup_empty.
    intros [[_ <-]|[_ [[_ <-]|[_ ?]]]]; done. }
  assert (timeToKeys_ sABC = [(0, a); (1, b); (2, c)]) as HlABC by reflexivity.
  assert (keysToTimeAndValue_ sABC !! A = Some (mkEntry a (0, vA))) as HkA.
  { simpl. rewrite !lookup_insert_ne by done. apply lookup_insert_eq. }
  assert (timeToKeys_ sBC = [(1, b); (2, c)]) as HlBC.
  { simpl. rewrite decide_True by done. done. }
  assert (consistent sBC) as HcBC by (by apply consistent_without).
  assert (cleanupWithoutLocking 2 3 sABC = Ok sBC) as Hclean.
  { unfold cleanupWithoutLocking. change (N.to_nat 3) with 3%nat.
    rewrite (cleanup_loop_evict 10 2 2 2 sABC (0, a) [(1, b); (2, c)]
               A (mkEntry a (0, vA))); try done.
    - apply (cleanup_loop_stop 10 2 2 1 sBC (1, b) [(2, c)]); [done|..].
      + unfold stale. simpl. lia.
      + rewrite HlBC. unfold over_capacity. simpl. lia.
    - right. rewrite HlABC. unfold over_capacity. simpl. lia.
    - by apply (deref_lookup sABC A (mkEntry a (0, vA))). }
  assert (keysToTimeAndValue_ sBC !! A = None) as HkA'.
  { simpl. apply lookup_delete_eq. }
  split_and!.
  - apply get_inserts; [apply lookup_empty|done|].
    apply (cleanup_loop_stop 10 2 0 2 sA (0, a) []); [done|..].
    + unfold stale. simpl. lia.
    + unfold over_capacity. simpl. lia.
  - apply get_inserts; [done..|].
    apply (cleanup_loop_stop 10 2 1 2 sAB (0, a) [(1, b)]); [done|..].
    + unfold stale. simpl. lia.
    + unfold over_capacity. simpl. lia.
  - done.
  - by apply get_inserts.
  - intros k. simpl. rewrite lookup_delete_is_Some.
    rewrite !lookup_insert_is_Some, lookup_empty, is_Some_alt.
    destruct (decide (k = A)) as [->|]; naive_solver.
  - done.
  - by apply get_lookup_absent.
  - intros ins Halloc.
    destruct (get_consistent moved_from 10 2 valueObtainer_ 3 A ins sBC w3 HcBC Halloc)
      as (o & s' & Hget & _).
    rewrite get_lookup_absent in Hget by done. eauto.
Qed.

End EvictionScenario.

(** ** Further properties of the operations *)

Module TimeSetMore.
Import TimeSet TimeSetFacts.

Lemma erase_erase_comm x y l :
  (erase x (erase y l).1).1 = (erase y (erase x l).1).1.
Proof.
  induction l as [|z l IH]; simpl; [done|].
  destruct (decide (y = z)) as [->|Hyz], (decide (x = z)) as [->|Hxz]; simpl.
  - done.
  - rewrite decide_True by done. done.
  - rewrite decide_True by done. done.
  - rewrite !decide_False by done. simpl. by rewrite IH.
Qed.

Lemma insert_first x l : Forall (pair_lt x) l → insert x l = x :: l.
Proof.
  destruct l as [|y l]; simpl; [done|].
  intros Hall. apply Forall_cons in Hall as [Hxy _].
  apply pair_ltb_lt in Hxy. by rewrite Hxy.
Qed.

Lemma insert_last x l :
  Forall (fun y => pair_lt y x) l → insert x l = l ++ [x].
Proof.
  induction l as [|y l IH]; simpl; [done|].
  intros Hall. apply Forall_cons in Hall as [Hyx Hall].
  assert (pair_ltb x y = false) as ->.
  { apply pair_ltb_nlt. intros Hxy.
    exact (pair_lt_irrefl _ (pair_lt_trans _ _ _ Hxy Hyx)). }
  apply pair_ltb_lt in Hyx. rewrite Hyx. by rewrite IH.
Qed.

Lemma earlier_lt (x y : Z * Z) : x.1 < y.1 → pair_lt x y.
Proof. unfold pair_lt. lia. Qed.

End TimeSetMore.

Section LruCacheExtras.

Set Default Proof Using "Type".

Context {Key : Type} `{Countable Key}.
Context {Value Exn Env : Type}.
Variable moved_from : Value → Value.
Variable maxTime_ : Z.
Variable maxElements_ : N.
Variable valueObtainer_ : Key → Env → (Exn + Value) * Env.

Local Abbreviation Cache := (@LruCacheBase Key _ _ Value).
Local Abbreviation cleanup_loop := (@cleanup_loop Key _ _ Value maxTime_ maxElements_).
Local Abbreviation cleanupWithoutLocking :=
  (@cleanupWithoutLocking Key _ _ Value maxTime_ maxElements_).
Local Abbreviation cleanup := (@cleanup Key _ _ Value maxTime_ maxElements_).
Local Abbreviation get_lookup := (@get_lookup Key _ _ Value maxTime_).
Local Abbreviation get_fill :=
  (@get_fill Key _ _ Value Exn moved_from maxTime_ maxElements_).
Local Abbreviation get :=
  (@get Key _ _ Value Exn Env moved_from maxTime_ maxElements_ valueObtainer_).
Local Abbreviation run :=
  (@run Key _ _ Value Exn Env moved_from maxTime_ maxElements_ valueObtainer_).
Local Abbreviation reachable :=
  (@reachable Key _ _ Value Exn Env moved_from maxTime_ maxElements_ valueObtainer_).
Local Abbreviation enter :=
  (@enter Key _ _ Value Exn moved_from maxTime_ maxElements_).
Local Abbreviation reachable_mt :=
  (@reachable_mt Key _ _ Value Exn moved_from maxTime_ maxElements_).
Local Abbreviation stale := (stale maxTime_).
Local Abbreviation over_capacity := (over_capacity maxElements_).
Local Abbreviation within_capacity := (@within_capacity Key _ _ Value maxElements_).
Local Abbreviation age_sum_ok := (age_sum_ok maxTime_).
Local Abbreviation sums_ok := (@sums_ok Key _ _ Value maxTime_).

Implicit Types (s : Cache) (m : gmap Key (@Entry Value)) (k keys : Key)
  (e : @Entry Value).

(** *** The eviction pass on any cache *)

(** The pass only removes: what is in an index afterwards was there before. *)
Lemma cleanup_loop_keeps currentTs budget s s' :
  cleanup_loop currentTs budget s = Ok s' →
  (∀ k e, keysToTimeAndValue_ s' !! k = Some e →
          keysToTimeAndValue_ s !! k = Some e)
  ∧ (∀ x, x ∈ timeToKeys_ s' → x ∈ timeToKeys_ s).
Proof.
  clear valueObtainer_ moved_from.
  revert s. induction budget as [|budget IH]; intros s; simpl.
  { intros [= <-]. done. }
  destruct (timeToKeys_ s) as [|x rest] eqn:Hl.
  { intros [= <-]. rewrite Hl. done. }
  destruct (_ || _).
  - destruct (deref _ _) as [k0|]; [|done].
    destruct (_ =? _)%nat; simpl; [|done].
    intros Hrun. apply IH in Hrun as [Hprim Hrec]. simpl in *. split.
    + intros k e Hk. apply Hprim in Hk.
      apply lookup_delete_Some in Hk. tauto.
    + intros y Hy. apply elem_of_cons. auto.
  - intros [= <-]. rewrite Hl. done.
Qed.

(** X3. Splitting the budget: a pass with budget [n + m] does what a pass
    with budget [n] followed by a pass with budget [m] at the same time
    does, on every cache, aborts included. *)
Theorem cleanup_budget_split currentTs (n1 n2 : N) s :
  cleanup currentTs (n1 + n2) s
  = cleanup currentTs n1 s ≫= cleanup currentTs n2.
Proof.
  clear valueObtainer_ moved_from.
  unfold cleanup, cleanupWithoutLocking. rewrite N2Nat.inj_add.
  generalize (N.to_nat n1) as a, (N.to_nat n2) as b. clear n1 n2.
  intros a b. revert s. induction a as [|a IH]; intros s; [done|].
  change (S a + b)%nat with (S (a + b)). simpl.
  destruct (timeToKeys_ s) as [|x rest] eqn:Hl.
  { simpl. by rewrite cleanup_loop_empty. }
  destruct (_ || _) eqn:Hev.
  - destruct (deref _ _) as [k0|]; [|done].
    destruct (_ =? _)%nat; simpl; [|done]. apply IH.
  - simpl. destruct b as [|b]; [done|]. simpl. by rewrite Hl, Hev.
Qed.

Lemma elem_of_dropped {A} (l : list A) (n : nat) (x : A) :
  x ∈ l → x ∉ drop n l → ∃ i, (i < n)%nat ∧ l !! i = Some x.
Proof.
  intros Hin Hnot. apply list_elem_of_lookup in Hin as [i Hi].
  exists i. split; [|done].
  destruct (decide (i < n)%nat) as [|Hge]; [done|].
  destruct Hnot. apply list_elem_of_lookup. exists (i - n)%nat.
  rewrite lookup_drop. rewrite <- Hi. f_equal. lia.
Qed.

Lemma not_stale_later currentTs (x y : Z * Z) :
  TimeSet.pair_lt x y → ¬ stale currentTs x.1 → ¬ stale currentTs y.1.
Proof.
  intros Hlt Hns. apply TimeSetFacts.pair_lt_ts in Hlt.
  unfold stale in *. lia.
Qed.

(** X4. A pass whose budget is at least the number of entries leaves a cache
    that is within its capacity and holds no stale entry, and that further
    passes at the same time leave as it is. *)
Theorem cleanup_with_full_budget currentTs maxOperations s :
  consistent s →
  (N.of_nat (length (timeToKeys_ s)) ≤ maxOperations)%N →
  ∃ s', cleanup currentTs maxOperations s = Ok s'
        ∧ within_capacity s'
        ∧ (∀ k e, keysToTimeAndValue_ s' !! k = Some e →
                  ¬ stale currentTs (timeAndValue e).1)
        ∧ (∀ x, x ∈ timeToKeys_ s' → ¬ stale currentTs x.1)
        ∧ (∀ maxOperations', cleanup currentTs maxOperations' s' = Ok s').
Proof.
  intros Hc Hbudget. unfold cleanup, cleanupWithoutLocking.
  destruct (cleanup_loop_spec maxTime_ maxElements_ currentTs
              (N.to_nat maxOperations) s Hc)
    as (n & s' & Hrun & Hc' & Hn & Hdrop & _ & _ & Hend).
  exists s'. split; [done|].
  assert (within_capacity s'
          ∧ ∀ x, x ∈ timeToKeys_ s' → ¬ stale currentTs x.1) as [Hcap Hfresh].
  { destruct (decide (n < N.to_nat maxOperations)%nat) as [Hlt|Hge].
    - specialize (Hend Hlt). pose proof (cons_sorted s' Hc') as Hsorted.
      unfold within_capacity.
      destruct (timeToKeys_ s') as [|x l].
      + split; [unfold over_capacity; simpl; lia|].
        intros y Hy. by apply elem_of_nil in Hy.
      + destruct Hend as [Hns Hno]. split; [done|].
        intros y [->|Hy]%elem_of_cons; [done|].
        apply (not_stale_later currentTs x y); [|done].
        exact (TimeSetFacts.sorted_head_min _ _ _ Hsorted Hy).
    - assert (timeToKeys_ s' = []) as Hnil.
      { rewrite Hdrop. apply drop_ge. lia. }
      unfold within_capacity. rewrite Hnil. split.
      + unfold over_capacity. simpl. lia.
      + intros y Hy. by apply elem_of_nil in Hy. }
  split_and!; [done| |done|].
  - intros k e Hk. exact (Hfresh _ (cons_primary s' Hc' _ _ Hk)).
  - intros maxOperations'. destruct (timeToKeys_ s') as [|x l] eqn:Hl.
    + by apply cleanup_loop_empty.
    + destruct (N.to_nat maxOperations') as [|b]; [done|].
      apply (cleanup_loop_stop maxTime_ maxElements_ currentTs b s' x l Hl).
      * apply Hfresh. apply elem_of_cons. by left.
      * exact Hcap.
Qed.

(** X5. On a cache within its capacity, in which no sum
    [timestamp + maxTime_] overflows the 64-bit ticks, a pass evicts stale
    entries only: every entry that is not stale is still there afterwards,
    unchanged, and every entry that is gone was stale. *)
Theorem cleanup_keeps_fresh_entries currentTs maxOperations s s' :
  consistent s → sums_ok s → within_capacity s →
  cleanup currentTs maxOperations s = Ok s' →
  ∀ k e, keysToTimeAndValue_ s !! k = Some e →
    (¬ stale currentTs (timeAndValue e).1 →
     keysToTimeAndValue_ s' !! k = Some e)
    ∧ (keysToTimeAndValue_ s' !! k = None →
       stale currentTs (timeAndValue e).1).
Proof.
  intros Hc _ Hcap Hrun k e Hk. unfold cleanup, cleanupWithoutLocking in Hrun.
  destruct (cleanup_loop_spec maxTime_ maxElements_ currentTs
              (N.to_nat maxOperations) s Hc)
    as (n & s'' & Hrun' & _ & _ & _ & Hprim & Hevicted & _).
  rewrite Hrun in Hrun'. injection Hrun' as <-.
  assert (¬ stale currentTs (timeAndValue e).1 →
          keysToTimeAndValue_ s' !! k = Some e) as Hkept.
  { intros Hns. apply Hprim. split; [done|].
    destruct (decide (tsAndKeys_of e ∈ drop n (timeToKeys_ s))) as [|Hnot]; [done|].
    destruct (elem_of_dropped _ n _ (cons_primary s Hc _ _ Hk) Hnot)
      as (i & Hi & Hlook).
    destruct (Hevicted i _ Hi Hlook) as [_ [Hst|Hover]]; [done|].
    unfold within_capacity, over_capacity in *. lia. }
  split; [done|]. intros Hgone.
  destruct (decide (stale currentTs (timeAndValue e).1)) as [|Hns]; [done|].
  rewrite (Hkept Hns) in Hgone. done.
Qed.

(** *** [erase] and the other operations *)

Lemma without_comm k1 k2 e1 e2 s :
  without k1 e1 (without k2 e2 s) = without k2 e2 (without k1 e1 s).
Proof.
  unfold without. simpl. f_equal.
  - apply delete_delete.
  - apply TimeSetMore.erase_erase_comm.
Qed.

Lemma erase_erase_present k1 k2 e1 e2 s :
  consistent s → k1 ≠ k2 →
  keysToTimeAndValue_ s !! k1 = Some e1 →
  keysToTimeAndValue_ s !! k2 = Some e2 →
  (erase k1 s ≫= erase k2) = Ok (without k2 e2 (without k1 e1 s)).
Proof.
  intros Hc Hne H1 H2. rewrite (erase_present s k1 e1) by done. simpl.
  apply erase_present; [by apply consistent_without|].
  simpl. by rewrite lookup_delete_ne.
Qed.

Lemma erase_erase_absent k1 k2 s :
  keysToTimeAndValue_ s !! k2 = None →
  (erase k1 s ≫= erase k2) = erase k1 s.
Proof.
  intros H2. destruct (erase k1 s) as [s1|] eqn:Herase; simpl; [|done].
  apply erase_absent. revert Herase. unfold erase.
  destruct (keysToTimeAndValue_ s !! k1) as [e1|].
  - destruct (_ =? _)%nat; simpl; [|done].
    intros [= <-]. simpl. rewrite lookup_delete_None. by right.
  - by intros [= <-].
Qed.

(** X6. Erasing two keys gives the same cache in either order. *)
Theorem erase_commutes k1 k2 s :
  consistent s →
  (erase k1 s ≫= erase k2) = (erase k2 s ≫= erase k1).
Proof.
  intros Hc. destruct (decide (k1 = k2)) as [->|Hne]; [done|].
  destruct (keysToTimeAndValue_ s !! k1) as [e1|] eqn:H1,
           (keysToTimeAndValue_ s !! k2) as [e2|] eqn:H2.
  - rewrite (erase_erase_present k1 k2 e1 e2) by done.
    rewrite (erase_erase_present k2 k1 e2 e1) by done.
    by rewrite without_comm.
  - rewrite (erase_erase_absent k1 k2) by done.
    rewrite (erase_absent s k2) by done. reflexivity.
  - rewrite (erase_erase_absent k2 k1) by done.
    rewrite (erase_absent s k1) by done. reflexivity.
  - rewrite (erase_absent s k1), (erase_absent s k2) by done. simpl.
    by rewrite (erase_absent s k1), (erase_absent s k2).
Qed.

(** X7. After [erase] of a key the next [get] of that key, at whatever time,
    misses: it calls the obtainer. *)
Theorem erase_then_get_calls_obtainer keys s s' currentTs ins w :
  consistent s →
  erase keys s = Ok s' →
  alloc_ok (OpGet currentTs keys ins) s' →
  get_lookup currentTs keys s' = Ok (Miss s')
  ∧ ∃ o s'', get currentTs keys ins s' w
             = Ok (o, s'', (valueObtainer_ keys w).2).
Proof.
  intros Hc Herase Halloc.
  pose proof (erase_lookup _ _ _ Herase) as Hgone.
  assert (get_lookup currentTs keys s' = Ok (Miss s')) as Hl
    by (by apply get_lookup_absent).
  split; [done|].
  destruct (erase_consistent maxElements_ keys s Hc) as (s0 & Herase' & Hc' & _).
  rewrite Herase in Herase'. injection Herase' as <-.
  destruct (get_consistent moved_from maxTime_ maxElements_ valueObtainer_
              currentTs keys ins s' w Hc' Halloc) as (o & s'' & Hget & _).
  rewrite Hl in Hget. eauto.
Qed.

(** *** Two threads *)

Lemma enter_consistent cs s :
  consistent s → section_alloc_ok cs s →
  ∃ s', enter cs s = Ok s'
        ∧ consistent s'
        ∧ (within_capacity s → within_capacity s').
Proof.
  clear valueObtainer_.
  intros Hc Halloc.
  destruct cs as [currentTs keys|currentTs keys value ins
                 |currentTs maxOperations|keys]; simpl.
  - destruct (get_lookup_consistent maxTime_ maxElements_ currentTs keys s Hc)
      as (l & -> & Hpost).
    simpl. destruct l as [v|s1]; [by eexists|].
    exists s1. tauto.
  - destruct (get_fill_consistent moved_from maxTime_ maxElements_
                currentTs keys value ins s Hc Halloc)
      as (o & s' & -> & Hc' & Hcap').
    simpl. by exists s'.
  - apply cleanup_consistent. done.
  - apply erase_consistent. done.
Qed.

Lemma reachable_mt_consistent s :
  reachable_mt s → consistent s ∧ within_capacity s.
Proof.
  clear valueObtainer_.
  induction 1 as [|s cs s' _ [IHc IHcap] Halloc Hrun].
  - split; [apply consistent_empty|].
    unfold within_capacity, over_capacity. simpl. lia.
  - destruct (enter_consistent cs s IHc Halloc) as (s'' & Hrun' & Hc' & Hcap').
    rewrite Hrun in Hrun'. injection Hrun' as <-. auto.
Qed.

(** X2. With a real mutex: whatever the interleaving of the critical
    sections of [get], [cleanup] and [erase] calls of any number of threads,
    each time the lock is released the two indexes correspond 1:1 and the
    cache is within its capacity, and no critical section entered then
    fails an assertion. *)
Theorem mutex_interleavings_consistent s :
  reachable_mt s →
  corresponds s
  ∧ within_capacity s
  ∧ ∀ cs, section_alloc_ok cs s →
      ∃ s', enter cs s = Ok s' ∧ corresponds s' ∧ within_capacity s'.
Proof.
  intros Hreach. apply reachable_mt_consistent in Hreach as [Hc Hcap].
  split_and!; [by apply consistent_corresponds|done|].
  intros cs Halloc.
  destruct (enter_consistent cs s Hc Halloc) as (s' & Hrun & Hc' & Hcap').
  exists s'. split_and!; [done|by apply consistent_corresponds|auto].
Qed.

(** X1. Two threads that missed the same key: when the entry that the first
    one inserted is in the cache as the second one enters its second
    critical section, that entry carries the first thread's timestamp and
    value, and the second thread returns its own value and leaves the cache
    as it is. *)
Theorem race_first_writer_wins t1 t2 keys v1 v2 ins1 ins2 s o1 s1 e :
  keysToTimeAndValue_ s !! keys = None →
  get_fill t1 keys v1 ins1 s = Ok (o1, s1) →
  keysToTimeAndValue_ s1 !! keys = Some e →
  timeAndValue e = (t1, v1)
  ∧ get_fill t2 keys v2 ins2 s1 = Ok (Returned v2, s1).
Proof.
  intros Hk Hfill Hk1. split; [|by eapply get_fill_race].
  unfold get_fill in Hfill. rewrite Hk in Hfill.
  destruct (primaryInsert ins1) as [ex|a].
  { injection Hfill as _ <-. simpl in Hk1.
    rewrite lookup_delete_eq in Hk1. done. }
  rewrite lookup_insert_eq in Hfill.
  destruct (recencyInsert ins1) as [ex|].
  { injection Hfill as _ <-. simpl in Hk1.
    rewrite lookup_delete_eq in Hk1. done. }
  unfold cleanupWithoutLocking in Hfill.
  destruct (cleanup_loop _ _ _) as [s'|] eqn:Hrun; [|done].
  simpl in Hfill. injection Hfill as _ <-.
  apply cleanup_loop_keeps in Hrun as [Hprim _].
  apply Hprim in Hk1. simpl in Hk1.
  rewrite lookup_insert_eq in Hk1. by injection Hk1 as <-.
Qed.

(** *** A miss that inserts *)

Lemma get_lookup_miss_cases currentTs keys s s1 :
  get_lookup currentTs keys s = Ok (Miss s1) →
  (∀ k e, keysToTimeAndValue_ s1 !! k = Some e →
          keysToTimeAndValue_ s !! k = Some e)
  ∧ (∀ x, x ∈ timeToKeys_ s1 → x ∈ timeToKeys_ s).
Proof.
  clear valueObtainer_.
  unfold get_lookup. destruct (keysToTimeAndValue_ s !! keys) as [e0|].
  - destruct (_ >=? _); [done|]. destruct (_ =? _)%nat; simpl; [|done].
    intros [= <-]. simpl. split.
    + intros k e. rewrite lookup_delete_Some. tauto.
    + intros x. apply TimeSetFacts.erase_subset.
  - by intros [= <-].
Qed.

Lemma get_miss_inserts currentTs keys a s w s1 value w' s2 :
  get_lookup currentTs keys s = Ok (Miss s1) →
  valueObtainer_ keys w = (inr value, w') →
  cleanupWithoutLocking currentTs 3 (with_entry keys a currentTs value s1)
  = Ok s2 →
  get currentTs keys (allocated a) s w
  = Ok (Returned (moved_from value), s2, w').
Proof.
  intros Hl Hobt Hclean. unfold get. rewrite Hl. simpl. rewrite Hobt.
  rewrite (get_fill_inserts _ _ _ _ _ _ _ _ a) by eauto using get_lookup_miss.
  by rewrite Hclean.
Qed.

(** X8. Insert and look up, with a clock that has moved on since every
    earlier insertion, a maximum age that is not negative, room for at least
    one element, and no sum [timestamp + maxTime_] overflowing the 64-bit
    ticks, for the entries of the cache and for the new one: a [get] that
    misses and inserts leaves the key in the
    cache with the current time and the value the obtainer produced, and
    every [get] of the key up to [maxTime_] later returns that value without
    calling the obtainer. *)
Theorem get_then_get_hits currentTs keys a s w s1 value w' :
  consistent s →
  sums_ok s → age_sum_ok currentTs →
  0 ≤ maxTime_ → (0 < maxElements_)%N →
  (∀ x, x ∈ timeToKeys_ s → x.1 < currentTs) →
  get_lookup currentTs keys s = Ok (Miss s1) →
  valueObtainer_ keys w = (inr value, w') →
  fresh a (keysToTimeAndValue_ s1) →
  ∃ s2,
    get currentTs keys (allocated a) s w
    = Ok (Returned (moved_from value), s2, w')
    ∧ keysToTimeAndValue_ s2 !! keys = Some (mkEntry a (currentTs, value))
    ∧ ∀ t' ins', t' ≤ currentTs + maxTime_ →
        get t' keys ins' s2 w' = Ok (Returned value, s2, w').
Proof.
  intros Hc _ _ Hage Hroom Hclock Hl Hobt Hfresh.
  destruct (get_lookup_consistent maxTime_ maxElements_ currentTs keys s Hc)
    as (l & Hl' & Hpost).
  rewrite Hl in Hl'. injection Hl' as <-. destruct Hpost as (Hc1 & _ & _).
  pose proof (get_lookup_miss _ _ _ _ _ Hl) as Hk1.
  pose proof (get_lookup_miss_cases _ _ _ _ Hl) as [_ Hsub].
  pose proof (consistent_with_entry s1 keys a currentTs value Hc1 Hk1 Hfresh)
    as Hc'.
  destruct (cleanup_loop_spec maxTime_ maxElements_ currentTs (N.to_nat 3) _ Hc')
    as (n & s2 & Hrun & _ & _ & _ & Hprim & Hevicted & _).
  assert (keysToTimeAndValue_ s2 !! keys = Some (mkEntry a (currentTs, value)))
    as Hk2.
  { apply Hprim. split; [simpl; apply lookup_insert_eq|].
    change (tsAndKeys_of (mkEntry a (currentTs, value))) with (currentTs, a).
    set (l' := timeToKeys_ (with_entry keys a currentTs value s1)) in *.
    destruct (decide ((currentTs, a) ∈ drop n l')) as [|Hnot]; [done|].
    assert ((currentTs, a) ∈ l') as Hin.
    { apply TimeSetFacts.elem_of_insert. by left. }
    destruct (elem_of_dropped _ n _ Hin Hnot) as (i & Hi & Hlook).
    destruct (Hevicted i _ Hi Hlook) as [Hmin Hwhy].
    assert (drop (S i) l' = []) as Hlast.
    { apply elem_of_nil_inv. intros y Hy.
      pose proof (Hmin y Hy) as Hlt.
      apply (subseteq_drop (S i) l'), TimeSetFacts.elem_of_insert in Hy
        as [->|Hy].
      - by apply TimeSetFacts.pair_lt_irrefl in Hlt.
      - apply Hsub, Hclock in Hy. apply TimeSetFacts.pair_lt_ts in Hlt.
        simpl in Hlt. lia. }
    apply (f_equal length) in Hlast. rewrite length_drop in Hlast. simpl in Hlast.
    apply lookup_lt_Some in Hlook.
    destruct Hwhy as [Hst|Hover].
    - unfold stale in Hst. simpl in Hst. lia.
    - unfold over_capacity in Hover. lia. }
  exists s2. split_and!; [|done|].
  - by apply (get_miss_inserts _ _ _ _ _ s1).
  - intros t' ins' Ht'.
    apply (get_hit moved_from maxTime_ maxElements_ valueObtainer_
             t' keys ins' s2 w' (mkEntry a (currentTs, value)) Hk2).
    unfold stale. simpl. lia.
Qed.

Lemma with_entry_without_first keys a ts v s :
  keysToTimeAndValue_ s !! keys = None →
  Forall (TimeSet.pair_lt (ts, a)) (timeToKeys_ s) →
  without keys (mkEntry a (ts, v)) (with_entry keys a ts v s) = s.
Proof.
  intros Hk Hfirst. destruct s as [m l]. unfold without, with_entry. simpl in *.
  f_equal.
  - by apply delete_insert_id.
  - rewrite TimeSetMore.insert_first by done. simpl.
    by rewrite decide_True.
Qed.

(** X9. A clock that runs backwards: on a cache that is exactly full and
    whose entries all carry a later timestamp, a [get] that misses calls the
    obtainer, inserts the entry and evicts it in the same call; the cache is
    left exactly as it was. *)
Theorem get_with_older_timestamp_on_full_cache currentTs keys a s w value w' :
  consistent s →
  0 ≤ maxTime_ →
  N.of_nat (length (timeToKeys_ s)) = maxElements_ →
  (∀ x, x ∈ timeToKeys_ s → currentTs < x.1) →
  keysToTimeAndValue_ s !! keys = None →
  valueObtainer_ keys w = (inr value, w') →
  fresh a (keysToTimeAndValue_ s) →
  get currentTs keys (allocated a) s w
  = Ok (Returned (moved_from value), s, w').
Proof.
  intros Hc Hage Hfull Hclock Hk Hobt Hfresh.
  apply (get_miss_inserts _ _ _ _ _ s); [by apply get_lookup_absent|done|].
  pose proof (consistent_with_entry s keys a currentTs value Hc Hk Hfresh) as Hc'.
  assert (Forall (TimeSet.pair_lt (currentTs, a)) (timeToKeys_ s)) as Hfirst.
  { apply Forall_forall. intros x Hx. apply TimeSetMore.earlier_lt. simpl. auto. }
  unfold cleanupWithoutLocking. change (N.to_nat 3) with 3%nat.
  rewrite (cleanup_loop_evict maxTime_ maxElements_ currentTs 2
             (with_entry keys a currentTs value s) (currentTs, a)
             (timeToKeys_ s) keys (mkEntry a (currentTs, value))).
  - rewrite with_entry_without_first by done.
    destruct (timeToKeys_ s) as [|x rest] eqn:Hl.
    + by apply cleanup_loop_empty.
    + apply (cleanup_loop_stop maxTime_ maxElements_ currentTs 1 s x rest Hl).
      * assert (currentTs < x.1) by (apply Hclock; apply elem_of_cons; by left).
        unfold stale. lia.
      * unfold over_capacity. rewrite Hl in *. lia.
  - simpl. by apply TimeSetMore.insert_first.
  - right. simpl. rewrite TimeSetMore.insert_first by done.
    unfold over_capacity. simpl. lia.
  - simpl. apply lookup_insert_eq.
  - apply (deref_lookup _ keys (mkEntry a (currentTs, value)) Hc').
    simpl. apply lookup_insert_eq.
  - rewrite with_entry_without_first by done. done.
Qed.

Lemma oldest_is_first s k0 e0 :
  consistent s →
  keysToTimeAndValue_ s !! k0 = Some e0 →
  (∀ y, y ∈ timeToKeys_ s → y ≠ tsAndKeys_of e0 →
        TimeSet.pair_lt (tsAndKeys_of e0) y) →
  ∃ rest, timeToKeys_ s = tsAndKeys_of e0 :: rest.
Proof.
  intros Hc Hk0 Holdest.
  pose proof (cons_primary s Hc _ _ Hk0) as Hin.
  pose proof (cons_sorted s Hc) as Hsorted.
  destruct (timeToKeys_ s) as [|x rest]; [by apply elem_of_nil in Hin|].
  exists rest. f_equal.
  destruct (decide (x = tsAndKeys_of e0)) as [|Hne]; [done|].
  apply elem_of_cons in Hin as [|Hin]; [done|].
  pose proof (TimeSetFacts.sorted_head_min _ _ _ Hsorted Hin) as Hlt.
  assert (TimeSet.pair_lt (tsAndKeys_of e0) x) as Hgt.
  { apply Holdest; [apply elem_of_cons; by left|done]. }
  destruct (TimeSetFacts.pair_lt_irrefl _ (TimeSetFacts.pair_lt_trans _ _ _ Hlt Hgt)).
Qed.

(** X12. Least recently inserted goes first.  On a cache that is exactly
    full and holds no stale entry, with a clock that has moved on since
    every insertion and no sum [timestamp + maxTime_] overflowing the 64-bit
    ticks, for the entries of the cache and for the new one, a [get] that
    misses and inserts evicts the oldest entry
    and nothing else: the cache afterwards is the one in which the oldest
    entry is erased and the new one inserted. *)
Theorem get_on_full_cache_evicts_oldest currentTs keys a s w value w' k0 e0 :
  consistent s →
  sums_ok s → age_sum_ok currentTs →
  N.of_nat (length (timeToKeys_ s)) = maxElements_ →
  keysToTimeAndValue_ s !! k0 = Some e0 →
  (∀ y, y ∈ timeToKeys_ s → y ≠ tsAndKeys_of e0 →
        TimeSet.pair_lt (tsAndKeys_of e0) y) →
  (∀ y, y ∈ timeToKeys_ s → y.1 < currentTs ∧ ¬ stale currentTs y.1) →
  keysToTimeAndValue_ s !! keys = None →
  valueObtainer_ keys w = (inr value, w') →
  fresh a (keysToTimeAndValue_ s) →
  get currentTs keys (allocated a) s w
  = Ok (Returned (moved_from value),
        with_entry keys a currentTs value (without k0 e0 s), w').
Proof.
  intros Hc _ _ Hfull Hk0 Holdest Hclock Hk Hobt Hfresh.
  destruct (oldest_is_first s k0 e0 Hc Hk0 Holdest) as [rest Hl].
  assert (k0 ≠ keys) as Hne by (intros ->; congruence).
  pose proof (consistent_with_entry s keys a currentTs value Hc Hk Hfresh) as Hc'.
  assert (Forall (fun y => TimeSet.pair_lt y (currentTs, a)) (timeToKeys_ s))
    as Hlast.
  { apply Forall_forall. intros y Hy. apply TimeSetMore.earlier_lt.
    simpl. by apply Hclock. }
  assert (timeToKeys_ (with_entry keys a currentTs value s)
          = tsAndKeys_of e0 :: (rest ++ [(currentTs, a)])) as Hl'.
  { simpl. rewrite TimeSetMore.insert_last by done. by rewrite Hl. }
  assert (without k0 e0 (with_entry keys a currentTs value s)
          = with_entry keys a currentTs value (without k0 e0 s)) as Hswap.
  { unfold without, with_entry. simpl. f_equal.
    - by apply delete_insert_ne.
    - rewrite (TimeSetMore.insert_last _ (timeToKeys_ s)) by done.
      rewrite Hl in *. simpl. rewrite !decide_True by done. simpl.
      apply Forall_cons in Hlast as [_ Hlast].
      by rewrite TimeSetMore.insert_last. }
  assert (timeToKeys_ (with_entry keys a currentTs value (without k0 e0 s))
          = rest ++ [(currentTs, a)]) as Hl''.
  { rewrite <- Hswap. unfold without. cbn [timeToKeys_]. rewrite Hl'.
    simpl. by rewrite decide_True. }
  apply (get_miss_inserts _ _ _ _ _ s); [by apply get_lookup_absent|done|].
  unfold cleanupWithoutLocking. change (N.to_nat 3) with 3%nat.
  rewrite (cleanup_loop_evict maxTime_ maxElements_ currentTs 2
             (with_entry keys a currentTs value s) (tsAndKeys_of e0)
             (rest ++ [(currentTs, a)]) k0 e0).
  - rewrite Hswap.
    assert (tsAndKeys_of e0 ∈ timeToKeys_ s) as Hin0
      by (rewrite Hl; apply elem_of_cons; by left).
    destruct (Hclock _ Hin0) as [Hlt0 Hns0].
    destruct (rest ++ [(currentTs, a)]) as [|y rest'] eqn:Hrest.
    { by destruct rest. }
    apply (cleanup_loop_stop maxTime_ maxElements_ currentTs 1 _ y rest').
    + by rewrite Hl''.
    + assert (y ∈ rest ++ [(currentTs, a)]) as Hy
        by (rewrite Hrest; apply elem_of_cons; by left).
      apply elem_of_app in Hy as [Hy|Hy].
      * apply Hclock. rewrite Hl. apply elem_of_cons. by right.
      * apply list_elem_of_singleton in Hy as ->.
        unfold stale in *. simpl. lia.
    + rewrite Hl''. apply (f_equal length) in Hrest.
      rewrite length_app in Hrest. simpl in Hrest.
      rewrite Hl in Hfull. simpl in Hfull.
      unfold over_capacity. simpl. lia.
  - done.
  - right. rewrite Hl'. rewrite Hl in Hfull. simpl in Hfull.
    unfold over_capacity. simpl. rewrite length_app. simpl. lia.
  - simpl. by rewrite lookup_insert_ne.
  - change (tsAndKeys_of e0).2 with (keyAddr e0).
    apply (deref_lookup _ k0 e0 Hc'). simpl. by rewrite lookup_insert_ne.
  - by rewrite Hswap.
Qed.

(** *** A cache without capacity *)

Lemma zero_capacity_empty s w :
  maxElements_ = 0%N → reachable s w → s = empty_cache.
Proof.
  intros Hzero Hreach.
  apply (reachable_by_size moved_from maxTime_ maxElements_ valueObtainer_)
    in Hreach as [Hlen Hsize].
  assert (size (keysToTimeAndValue_ s) = 0%nat) as Hempty by lia.
  rewrite Hempty in Hlen. destruct s as [m l]. simpl in *.
  apply map_size_empty_inv in Hempty as ->.
  apply nil_length_inv in Hlen as ->. done.
Qed.

(** X10. A cache constructed with [maxElements_ = 0] never holds an entry
    between operations, and every [get] on it calls the obtainer. *)
Theorem zero_capacity_never_caches s w :
  maxElements_ = 0%N →
  reachable s w →
  s = empty_cache
  ∧ ∀ currentTs keys ins,
      ∃ o, get currentTs keys ins s w
           = Ok (o, empty_cache, (valueObtainer_ keys w).2).
Proof.
  intros Hzero Hreach.
  pose proof (zero_capacity_empty s w Hzero Hreach) as ->.
  split; [done|]. intros currentTs keys ins.
  assert (alloc_ok (OpGet currentTs keys ins) (@empty_cache Key _ _ Value))
    as Halloc.
  { intros a _ k e. simpl. rewrite lookup_delete_Some, lookup_empty.
    intros [_ ?]. done. }
  destruct (get_consistent moved_from maxTime_ maxElements_ valueObtainer_
              currentTs keys ins empty_cache w consistent_empty Halloc)
    as (o & s' & Hget & _).
  rewrite get_lookup_absent in Hget by apply lookup_empty.
  assert (reachable s' (valueObtainer_ keys w).2) as Hreach'.
  { eapply (reachable_step _ _ _ _ _ _ _ (OpGet currentTs keys ins));
      [exact Hreach|done|exact Halloc|].
    simpl. by rewrite Hget. }
  apply (zero_capacity_empty _ _ Hzero) in Hreach' as ->.
  by exists o.
Qed.

(** *** What no operation does *)

(** X11. No operation changes an entry in place or inserts for another
    key: an entry found in the primary index after an operation was there
    before it with the same address, timestamp and value, or it is the
    entry that a [get] of that very key made from the current time and the
    value its obtainer returned. *)
Theorem operations_never_modify_entries op s w s' w' :
  run op s w = Ok (s', w') →
  ∀ k e, keysToTimeAndValue_ s' !! k = Some e →
    keysToTimeAndValue_ s !! k = Some e
    ∨ ∃ currentTs ins a value,
        op = OpGet currentTs k ins
        ∧ primaryInsert ins = inr a
        ∧ (valueObtainer_ k w).1 = inr value
        ∧ e = mkEntry a (currentTs, value).
Proof.
  intros Hrun k e Hk.
  destruct op as [currentTs keys ins|currentTs maxOperations|keys]; simpl in Hrun.
  - unfold get in Hrun.
    destruct (get_lookup currentTs keys s) as [[v|s1]|] eqn:Hl; simpl in Hrun;
      [injection Hrun as <- <-; by left| |done].
    destruct (get_lookup_miss_cases _ _ _ _ Hl) as [Hsub _].
    destruct (valueObtainer_ keys w) as [[ex|value] w0] eqn:Hobt; simpl in Hrun.
    { injection Hrun as <- <-. left. auto. }
    unfold get_fill in Hrun.
    rewrite (get_lookup_miss _ _ _ _ _ Hl) in Hrun.
    destruct (primaryInsert ins) as [ex|a] eqn:Hp; simpl in Hrun.
    { injection Hrun as <- <-. simpl in Hk.
      apply lookup_delete_Some in Hk as [_ Hk]. left. auto. }
    rewrite lookup_insert_eq in Hrun.
    destruct (recencyInsert ins) as [ex|]; simpl in Hrun.
    { injection Hrun as <- <-. simpl in Hk.
      apply lookup_delete_Some in Hk as [Hne Hk].
      rewrite lookup_insert_ne in Hk by done. left. auto. }
    unfold cleanupWithoutLocking in Hrun.
    destruct (cleanup_loop _ _ _) as [s2|] eqn:Hclean; simpl in Hrun; [|done].
    injection Hrun as <- <-.
    apply cleanup_loop_keeps in Hclean as [Hprim _].
    apply Hprim in Hk. simpl in Hk.
    apply lookup_insert_Some in Hk as [[<- <-]|[_ Hk]]; [|left; auto].
    right. exists currentTs, ins, a, value. by rewrite Hobt.
  - unfold cleanup, cleanupWithoutLocking in Hrun.
    destruct (cleanup_loop _ _ _) as [s2|] eqn:Hclean; simpl in Hrun; [|done].
    injection Hrun as <- <-.
    apply cleanup_loop_keeps in Hclean as [Hprim _]. left. auto.
  - destruct (erase keys s) as [s2|] eqn:Herase; simpl in Hrun; [|done].
    injection Hrun as <- <-. left. revert Herase Hk. unfold erase.
    destruct (keysToTimeAndValue_ s !! keys) as [e0|].
    + destruct (_ =? _)%nat; simpl; [|done].
      intros [= <-]. simpl. rewrite lookup_delete_Some. tauto.
    + by intros [= <-].
Qed.

(** *** What [get] hands back *)

(** X13. A value that [get] returns is the value of a cached entry that is
    not stale, in which case nothing has changed and the obtainer was not
    called, or it comes from the obtainer called in this very call: the
    value it returned, or the state that value is left in by the move. *)
Theorem get_returns_fresh_or_obtained currentTs keys ins s w v s' w' :
  get currentTs keys ins s w = Ok (Returned v, s', w') →
  (∃ e, keysToTimeAndValue_ s !! keys = Some e
        ∧ ¬ stale currentTs (timeAndValue e).1
        ∧ v = (timeAndValue e).2 ∧ s' = s ∧ w' = w)
  ∨ (∃ value, valueObtainer_ keys w = (inr value, w')
              ∧ (v = value ∨ v = moved_from value)).
Proof.
  unfold get, get_lookup.
  destruct (keysToTimeAndValue_ s !! keys) as [e|] eqn:Hk.
  - destruct (_ >=? _) eqn:Hge; simpl.
    + intros [= <- <- <-]. left. exists e. split_and!; try done.
      rewrite Z.geb_leb, Z.leb_le in Hge. unfold stale. lia.
    + destruct (_ =? _)%nat; simpl; [|done].
      destruct (valueObtainer_ keys w) as [[ex|value] w0]; [done|].
      unfold get_fill. simpl. rewrite lookup_delete_eq.
      destruct (primaryInsert ins) as [ex|a]; simpl; [done|].
      rewrite lookup_insert_eq.
      destruct (recencyInsert ins) as [ex|]; simpl; [done|].
      destruct (cleanupWithoutLocking _ _ _); simpl; [|done].
      intros [= <- _ <-]. right. eauto.
  - simpl. destruct (valueObtainer_ keys w) as [[ex|value] w0]; [done|].
    unfold get_fill. rewrite Hk.
    destruct (primaryInsert ins) as [ex|a]; simpl; [done|].
    rewrite lookup_insert_eq.
    destruct (recencyInsert ins) as [ex|]; simpl; [done|].
    destruct (cleanupWithoutLocking _ _ _); simpl; [|done].
    intros [= <- _ <-]. right. eauto.
Qed.

(** X14. A failure is not cached: when a [get] has missed (no sum
    [timestamp + maxTime_] of the cache overflowing the 64-bit ticks) and
    its obtainer throws, or the obtainer returns and one of the two
    insertions throws, the call ends with that exception and the key is in
    neither index, so that the next [get] of the key, at whatever time,
    misses again. *)
Theorem failure_is_not_cached currentTs keys ins s w s1 ex :
  sums_ok s →
  get_lookup currentTs keys s = Ok (Miss s1) →
  (valueObtainer_ keys w).1 = inl ex
  ∨ ((∃ value, (valueObtainer_ keys w).1 = inr value)
     ∧ insertion_throws ins ex) →
  get currentTs keys ins s w = Ok (Thrown ex, s1, (valueObtainer_ keys w).2)
  ∧ keysToTimeAndValue_ s1 !! keys = None
  ∧ (∀ x, x ∈ timeToKeys_ s1 → deref (keysToTimeAndValue_ s1) x.2 ≠ Some keys)
  ∧ ∀ currentTs', get_lookup currentTs' keys s1 = Ok (Miss s1).
Proof.
  intros _ Hl Hthrow.
  pose proof (get_lookup_miss _ _ _ _ _ Hl) as Hk1.
  split_and!; [|done| |].
  - unfold get. rewrite Hl. simpl.
    destruct (valueObtainer_ keys w) as [[ex0|value] w0]; simpl in *.
    + destruct Hthrow as [[= ->]|[[value [=]] _]]. done.
    + destruct Hthrow as [[=]|[_ Hins]].
      by rewrite (get_fill_throws _ _ _ _ _ _ _ _ ex Hk1 Hins).
  - intros x _. by apply no_pair_for_absent_key.
  - intros currentTs'. by apply get_lookup_absent.
Qed.

End LruCacheExtras.

(** ** The concrete caches *)

Section ScenarioProofs.
Import Scenario.
Local Open Scope string_scope.

Lemma sA_consistent : consistent sA.
Proof.
  change sA with (with_entry "A" 300 0 1 (@empty_cache string _ _ Z)).
  apply consistent_with_entry.
  - apply consistent_empty.
  - apply lookup_empty.
  - intros k e. simpl. rewrite lookup_empty. done.
Qed.

Lemma sAB_consistent : consistent sAB.
Proof.
  change sAB with (with_entry "B" 200 1 1 sA).
  apply consistent_with_entry.
  - apply sA_consistent.
  - vm_compute. reflexivity.
  - intros k e. simpl. rewrite lookup_singleton_Some. intros [_ <-]. done.
Qed.

Lemma sABC_consistent : consistent sABC.
Proof.
  apply consistent_with_entry.
  - apply sAB_consistent.
  - vm_compute. reflexivity.
  - intros k e. simpl. rewrite lookup_insert_Some, lookup_singleton_Some.
    intros [[_ <-]|[_ [_ <-]]]; done.
Qed.

Lemma small_age_sum_ok (maxTime ts : Z) :
  (-1000 ≤ maxTime ≤ 1000)%Z → (-1000 ≤ ts ≤ 1000)%Z → age_sum_ok maxTime ts.
Proof. unfold age_sum_ok, in_ticks, tick_min, tick_max. lia. Qed.

Lemma sABC_sums_ok : sums_ok 10 sABC.
Proof.
  intros x Hx. apply small_age_sum_ok; [lia|].
  repeat (apply elem_of_cons in Hx as [->|Hx]); [..|by apply elem_of_nil in Hx];
    simpl; lia.
Qed.

Lemma sAB_sums_ok : sums_ok 10 sAB.
Proof.
  intros x Hx. apply small_age_sum_ok; [lia|].
  repeat (apply elem_of_cons in Hx as [->|Hx]); [..|by apply elem_of_nil in Hx];
    simpl; lia.
Qed.

Lemma sA_sums_ok : sums_ok 10 sA.
Proof.
  intros x Hx. apply small_age_sum_ok; [lia|].
  repeat (apply elem_of_cons in Hx as [->|Hx]); [..|by apply elem_of_nil in Hx];
    simpl; lia.
Qed.

Lemma fresh_empty (a : Z) (k : string) :
  fresh a (delete k (∅ : gmap string (@Entry Z))).
Proof. intros k' e. rewrite lookup_delete_Some, lookup_empty. naive_solver. Qed.

Lemma fresh_sA (a : Z) : a ≠ 300 → fresh a (keysToTimeAndValue_ sA).
Proof.
  intros Hne k e. simpl. rewrite lookup_singleton_Some. intros [_ <-]. done.
Qed.

Lemma sBC_reachable allowed :
  (∀ op, is_get op → allowed op) →
  reachable_by (fun v : Z => v) 10 2 name_length allowed sBC ["A"; "B"; "C"].
Proof.
  intros Hallowed.
  apply (reachable_step _ _ _ _ _ sAB ["A"; "B"] (OpGet 2 "C" (allocated 100))).
  - apply (reachable_step _ _ _ _ _ sA ["A"] (OpGet 1 "B" (allocated 200))).
    + apply (reachable_step _ _ _ _ _ empty_cache [] (OpGet 0 "A" (allocated 300))).
      * apply reachable_init.
      * by apply Hallowed.
      * intros a _. exact (fresh_empty a "A").
      * vm_compute. reflexivity.
    + by apply Hallowed.
    + intros a [= <-] k e. simpl.
      rewrite lookup_delete_Some, lookup_singleton_Some. intros [_ [_ <-]]. done.
    + vm_compute. reflexivity.
  - by apply Hallowed.
  - intros a [= <-] k e. simpl.
    rewrite lookup_delete_Some, lookup_insert_Some, lookup_singleton_Some.
    intros [_ [[_ <-]|[_ [_ <-]]]]; done.
  - vm_compute. reflexivity.
Qed.

(** The scenario run on the model: the log of obtainer calls ends with a
    second call for A. *)
Example eviction_scenario_run :
  get10 0 "A" (allocated 300) empty_cache [] = Ok (Returned 1, sA, ["A"])
  ∧ get10 1 "B" (allocated 200) sA ["A"] = Ok (Returned 1, sAB, ["A"; "B"])
  ∧ get_fill (fun v : Z => v) 10 2 2 "C" 1 (allocated 100) sAB
    = cleanupWithoutLocking 10 2 2 3 sABC
      ≫= (fun s' => Ok (Returned (Exn := string) 1, s'))
  ∧ dom (keysToTimeAndValue_ sABC) = {[ "A"; "B"; "C" ]}
  ∧ cleanupWithoutLocking 10 2 2 3 sABC = Ok sBC
  ∧ get10 2 "C" (allocated 100) sAB ["A"; "B"]
    = Ok (Returned 1, sBC, ["A"; "B"; "C"])
  ∧ dom (keysToTimeAndValue_ sBC) = {[ "B"; "C" ]}
  ∧ timeToKeys_ sBC = [(1, 200); (2, 100)]
  ∧ get_lookup 10 3 "A" sBC = Ok (Miss sBC)
  ∧ get10 3 "A" (allocated 300) sBC ["A"; "B"; "C"]
    = Ok (Returned 1, sCA, ["A"; "B"; "C"; "A"]).
Proof. split_and!; vm_compute; reflexivity. Qed.

(** C2, at a value type whose move constructor empties its source.  On a
    miss the obtainer produces a pointer to 1 and [get] stores it, but what
    [get] returns is the moved-from variable, the null pointer; the next
    [get], a hit, returns the pointer to 1. *)
Theorem get_miss_returns_moved_from_value :
  shared_length "A" [] = (inr (Some 1), ["A"])
  ∧ get_shared 0 "A" (allocated 300) empty_cache []
    = Ok (Returned None, sA_shared, ["A"])
  ∧ keysToTimeAndValue_ sA_shared !! "A" = Some (mkEntry 300 (0, Some 1))
  ∧ get_shared 1 "A" (allocated 300) sA_shared ["A"]
    = Ok (Returned (Some 1), sA_shared, ["A"]).
Proof. split_and!; vm_compute; reflexivity. Qed.

(** C3 fails at the boundary.  Maximum age 5, A inserted at time 0 by a
    [get] on the empty cache: it is not the case that every [get] of A at a
    time [T' >= 0 + 5] calls the obtainer, for at [T' = 5] the call returns
    the cached value and the log of obtainer calls is what it was. *)
Lemma freshness_boundary_counterexample :
  get5 0 "A" (allocated 300) empty_cache [] = Ok (Returned 1, sA, ["A"])
  ∧ get5 5 "A" (allocated 100) sA ["A"] = Ok (Returned 1, sA, ["A"])
  ∧ ¬ (∀ T' : Z, T' >= 0 + 5 →
         ∃ o s', get5 T' "A" (allocated 100) sA ["A"]
                 = Ok (o, s', (name_length "A" ["A"]).2)).
Proof.
  split_and!; [vm_compute; reflexivity..|].
  intros Hclaim. destruct (Hclaim 5 ltac:(lia)) as (o & s' & Hget).
  vm_compute in Hget. discriminate Hget.
Qed.

(** C4 fails for the order it names.  A and B are inserted at the same time
    and the node of B is at the lower address: in the order by timestamp,
    then key, the entry of A is the minimum, but the pass examines and
    evicts the entry of B and keeps that of A. *)
Lemma eviction_order_counterexample :
  get10 0 "A" (allocated 300) empty_cache [] = Ok (Returned 1, sA, ["A"])
  ∧ get10 0 "B" (allocated 200) sA ["A"]
    = Ok (Returned 1, sAB_same_time, ["A"; "B"])
  ∧ String.ltb "A" "B" = true
  ∧ cleanup 10 2 11 1 sAB_same_time = Ok sA
  ∧ keysToTimeAndValue_ sA !! "B" = None
  ∧ keysToTimeAndValue_ sA !! "A" = Some (mkEntry 300 (0, 1)).
Proof. split_and!; vm_compute; reflexivity. Qed.

(** *** The theorems at concrete inputs *)

Lemma eviction_scenario_witness :
  get10 2 "C" (allocated 100) sAB ["A"; "B"] = Ok (Returned 1, sBC, ["A"; "B"; "C"])
  ∧ get_lookup 10 3 "A" sBC = Ok (Miss sBC).
Proof.
  pose proof (eviction_scenario (fun v : Z => v) name_length
                "A" "B" "C" 300 200 100 1 1 1
                [] ["A"] ["A"; "B"] ["A"; "B"; "C"]
                ltac:(done) ltac:(done) ltac:(done)
                ltac:(done) ltac:(done) ltac:(done)
                eq_refl eq_refl eq_refl) as Hrun.
  cbv zeta in Hrun.
  destruct Hrun as (_ & _ & _ & Hget & _ & _ & Hmiss & _).
  split; [exact Hget|exact Hmiss].
Defined.

Lemma index_consistency_witness :
  reachable (fun v : Z => v) 10 2 name_length sBC ["A"; "B"; "C"]
  ∧ corresponds sBC.
Proof.
  assert (reachable (fun v : Z => v) 10 2 name_length sBC ["A"; "B"; "C"]) as Hreach.
  { apply sBC_reachable. done. }
  split; [exact Hreach|].
  exact (proj1 (index_consistency _ _ _ _ _ _ Hreach)).
Defined.

Lemma capacity_bound_witness :
  reachable_by (fun v : Z => v) 10 2 name_length is_get sBC ["A"; "B"; "C"]
  ∧ (N.of_nat (size (keysToTimeAndValue_ sBC)) ≤ 2 + 1)%N.
Proof.
  assert (reachable_by (fun v : Z => v) 10 2 name_length is_get sBC ["A"; "B"; "C"])
    as Hreach.
  { apply sBC_reachable. done. }
  split; [exact Hreach|].
  exact (proj1 (proj2 (proj2 (capacity_bound _ _ _ _ _ _ Hreach)))).
Defined.

Lemma freshness_window_witness :
  consistent sA
  ∧ ∃ o s', get5 6 "A" (allocated 300) sA ["A"] = Ok (o, s', ["A"; "A"]).
Proof.
  split; [exact sA_consistent|].
  refine (proj2 (proj2 (freshness_window (fun v : Z => v) 5 2 name_length
                          6 "A" (allocated 300) sA ["A"] (mkEntry 300 (0, 1))
                          sA_consistent _ _ _) _)).
  - intros a _ k e. simpl.
    rewrite lookup_delete_Some, lookup_singleton_Some. naive_solver.
  - vm_compute. reflexivity.
  - apply small_age_sum_ok; simpl; lia.
  - simpl. lia.
Defined.

Lemma cleanup_eviction_logic_witness :
  consistent sABC
  ∧ sums_ok 10 sABC
  ∧ ∃ (n : nat) s', cleanupWithoutLocking 10 2 2 3 sABC = Ok s' ∧ (n ≤ 3)%nat.
Proof.
  split; [exact sABC_consistent|]. split; [exact sABC_sums_ok|].
  destruct (cleanup_eviction_logic 10 2 2 3 sABC sABC_consistent sABC_sums_ok)
    as (n & s' & Hrun & _ & Hn & _).
  exists n, s'. split; [exact Hrun|lia].
Defined.

Lemma insertion_failure_rolls_back_witness :
  insertion_throws {| primaryInsert := inr 200; recencyInsert := Some "bad_alloc" |}
    "bad_alloc"
  ∧ get10 1 "B" {| primaryInsert := inr 200; recencyInsert := Some "bad_alloc" |}
      sA ["A"]
    = Ok (Thrown "bad_alloc", sA, ["A"; "B"]).
Proof.
  assert (insertion_throws
            {| primaryInsert := inr 200; recencyInsert := Some "bad_alloc" |}
            "bad_alloc") as Hthrow.
  { right. simpl. split; [by exists 200|reflexivity]. }
  split; [exact Hthrow|].
  refine (proj1 (proj2 (insertion_failure_rolls_back (fun v : Z => v) 10 2
                          name_length 1 "B" _ _ Hthrow)
                   sA ["A"] sA 1 ["A"; "B"] _ _)).
  - vm_compute. reflexivity.
  - reflexivity.
Defined.

Lemma fresh_hit_frame_witness :
  get10 10 "A" (allocated 100) sA ["A"] = Ok (Returned 1, sA, ["A"]).
Proof.
  refine (proj2 (fresh_hit_frame (fun v : Z => v) 10 2 name_length
                   10 "A" (allocated 100) sA ["A"] (mkEntry 300 (0, 1)) _ _ _)).
  - vm_compute. reflexivity.
  - apply small_age_sum_ok; simpl; lia.
  - simpl. lia.
Defined.

Lemma erase_semantics_witness :
  consistent sAB
  ∧ ∃ s', erase "A" sAB = Ok s' ∧ erase "A" s' = Ok s'.
Proof.
  split; [exact sAB_consistent|].
  exact (proj1 (proj2 (proj2 (erase_semantics "A" sAB sAB_consistent)))).
Defined.

Lemma stale_removal_survives_obtainer_failure_witness :
  @get string _ _ Z string (list string) (fun v => v) 10 2 unavailable
    11 "A" (allocated 100) sA ["A"]
  = Ok (Thrown "unavailable", without "A" (mkEntry 300 (0, 1)) sA, ["A"; "A"]).
Proof.
  refine (proj1 (stale_removal_survives_obtainer_failure (fun v : Z => v) 10 2
                   unavailable 11 "A" (allocated 100) sA ["A"]
                   (mkEntry 300 (0, 1)) "unavailable" ["A"; "A"]
                   sA_consistent _ _ _)).
  - vm_compute. reflexivity.
  - simpl. lia.
  - reflexivity.
Defined.

End ScenarioProofs.

(** *** The further properties at concrete inputs *)

Section ExtraWitnesses.
Import Scenario.
Local Open Scope string_scope.

Ltac members H :=
  repeat (apply elem_of_cons in H as [->|H]); [..|by apply elem_of_nil in H].

Lemma sBC_consistent : consistent sBC.
Proof.
  exact (proj1 (reachable_by_consistent (fun v : Z => v) 10 2 name_length
                  is_get sBC ["A"; "B"; "C"] (sBC_reachable _ (fun _ H => H)))).
Qed.

Lemma fresh_sAB (a : Z) : a ≠ 300 → a ≠ 200 → fresh a (keysToTimeAndValue_ sAB).
Proof.
  intros Ha Hb k e. simpl. rewrite lookup_insert_Some, lookup_singleton_Some.
  intros [[_ <-]|[_ [_ <-]]]; done.
Qed.

Lemma fresh_sBC (a : Z) : a ≠ 200 → a ≠ 100 → fresh a (keysToTimeAndValue_ sBC).
Proof.
  intros Ha Hb k e. simpl. rewrite lookup_insert_Some, lookup_singleton_Some.
  intros [[_ <-]|[_ [_ <-]]]; done.
Qed.

Lemma race_first_writer_wins_witness :
  get_fill (Exn := string) (fun v : Z => v) 10 2 1 "B" 7 (allocated 500) sAB
  = Ok (Returned 7, sAB).
Proof.
  refine (proj2 (race_first_writer_wins (Exn := string) (fun v : Z => v) 10 2
                   1 1 "B" 1 7 (allocated 200) (allocated 500)
                   sA (Returned 1) sAB (mkEntry 200 (1, 1)) _ _ _));
    vm_compute; reflexivity.
Defined.

Lemma mutex_interleavings_consistent_witness :
  reachable_mt (Exn := string) (fun v : Z => v) 10 2 sA ∧ corresponds sA.
Proof.
  assert (reachable_mt (Exn := string) (fun v : Z => v) 10 2 sA) as Hreach.
  { apply (reachable_mt_step _ _ _ empty_cache
             (CsFill 0 "A" 1 (allocated 300)) sA).
    - apply reachable_mt_init.
    - intros a _ k e. simpl. rewrite lookup_empty. done.
    - vm_compute. reflexivity. }
  split; [exact Hreach|].
  exact (proj1 (mutex_interleavings_consistent _ _ _ _ Hreach)).
Defined.

Lemma cleanup_with_full_budget_witness :
  consistent sABC
  ∧ ∃ s', cleanup 10 2 2 3 sABC = Ok s' ∧ within_capacity 2 s'.
Proof.
  split; [exact sABC_consistent|].
  destruct (cleanup_with_full_budget 10 2 2 3 sABC sABC_consistent)
    as (s' & Hrun & Hcap & _).
  { vm_compute. discriminate. }
  exists s'. split; [exact Hrun|exact Hcap].
Defined.

Lemma cleanup_keeps_fresh_entries_witness :
  cleanup 10 2 11 3 sAB
  = Ok {| keysToTimeAndValue_ := {[ "B" := mkEntry 200 (1, 1) ]};
          timeToKeys_ := [(1, 200)] |}
  ∧ ({[ "B" := mkEntry 200 (1, 1) ]} : gmap string (@Entry Z)) !! "B"
    = Some (mkEntry 200 (1, 1)).
Proof.
  assert (cleanup 10 2 11 3 sAB
          = Ok {| keysToTimeAndValue_ := {[ "B" := mkEntry 200 (1, 1) ]};
                  timeToKeys_ := [(1, 200)] |}) as Hrun
    by (vm_compute; reflexivity).
  split; [exact Hrun|].
  refine (proj1 (cleanup_keeps_fresh_entries 10 2 11 3 sAB _
                   sAB_consistent sAB_sums_ok _ Hrun "B" (mkEntry 200 (1, 1)) _) _).
  - unfold within_capacity, over_capacity. simpl. lia.
  - vm_compute. reflexivity.
  - unfold stale. simpl. lia.
Defined.

Lemma erase_commutes_witness :
  consistent sAB
  ∧ (erase "A" sAB ≫= erase "B") = (erase "B" sAB ≫= erase "A").
Proof.
  split; [exact sAB_consistent|].
  exact (erase_commutes "A" "B" sAB sAB_consistent).
Defined.

Lemma erase_then_get_calls_obtainer_witness :
  erase "B" sAB = Ok sA
  ∧ get_lookup 10 1 "B" sA = Ok (Miss sA).
Proof.
  assert (erase "B" sAB = Ok sA) as Herase by (vm_compute; reflexivity).
  split; [exact Herase|].
  refine (proj1 (erase_then_get_calls_obtainer (fun v : Z => v) 10 2 name_length
                   "B" sAB sA 1 (allocated 200) ["A"]
                   sAB_consistent Herase _)).
  intros a [= <-] k e. simpl.
  rewrite lookup_delete_Some, lookup_singleton_Some. intros [_ [_ <-]]. done.
Defined.

Lemma get_then_get_hits_witness :
  ∃ s2,
    get10 1 "B" (allocated 200) sA ["A"] = Ok (Returned 1, s2, ["A"; "B"])
    ∧ keysToTimeAndValue_ s2 !! "B" = Some (mkEntry 200 (1, 1))
    ∧ ∀ (t' : Z) ins', (t' ≤ 1 + 10)%Z →
        get10 t' "B" ins' s2 ["A"; "B"] = Ok (Returned 1, s2, ["A"; "B"]).
Proof.
  refine (get_then_get_hits (fun v : Z => v) 10 2 name_length
            1 "B" 200 sA ["A"] sA 1 ["A"; "B"]
            sA_consistent sA_sums_ok _ _ _ _ _ _ _).
  - apply small_age_sum_ok; lia.
  - lia.
  - lia.
  - intros x Hx. members Hx. simpl. lia.
  - vm_compute. reflexivity.
  - reflexivity.
  - apply fresh_sA. done.
Defined.

Lemma get_with_older_timestamp_on_full_cache_witness :
  get10 0 "A" (allocated 300) sBC ["A"; "B"; "C"]
  = Ok (Returned 1, sBC, ["A"; "B"; "C"; "A"]).
Proof.
  refine (get_with_older_timestamp_on_full_cache (fun v : Z => v) 10 2
            name_length 0 "A" 300 sBC ["A"; "B"; "C"] 1 ["A"; "B"; "C"; "A"]
            sBC_consistent _ _ _ _ _ _).
  - lia.
  - reflexivity.
  - intros x Hx. members Hx; simpl; lia.
  - vm_compute. reflexivity.
  - reflexivity.
  - apply fresh_sBC; done.
Defined.

Lemma zero_capacity_never_caches_witness :
  ∃ o, @get string _ _ Z string (list string) (fun v => v) 10 0 name_length
         5 "A" (allocated 300) empty_cache []
       = Ok (o, empty_cache, ["A"]).
Proof.
  refine (proj2 (zero_capacity_never_caches (fun v : Z => v) 10 0 name_length
                   empty_cache [] eq_refl _) 5 "A" (allocated 300)).
  apply reachable_init.
Defined.

Lemma operations_never_modify_entries_witness :
  run (fun v : Z => v) 10 2 name_length (OpGet 2 "C" (allocated 100))
    sAB ["A"; "B"]
  = Ok (sBC, ["A"; "B"; "C"])
  ∧ (keysToTimeAndValue_ sAB !! "B" = Some (mkEntry 200 (1, 1))
     ∨ ∃ currentTs (ins : @Insertion string) a value,
         OpGet 2 "C" (allocated 100) = OpGet currentTs "B" ins
         ∧ primaryInsert ins = inr a
         ∧ (name_length "B" ["A"; "B"]).1 = inr value
         ∧ mkEntry 200 (1, 1) = mkEntry a (currentTs, value)).
Proof.
  assert (run (fun v : Z => v) 10 2 name_length (OpGet 2 "C" (allocated 100))
            sAB ["A"; "B"] = Ok (sBC, ["A"; "B"; "C"])) as Hrun
    by (vm_compute; reflexivity).
  split; [exact Hrun|].
  refine (operations_never_modify_entries (fun v : Z => v) 10 2 name_length
            _ _ _ _ _ Hrun "B" (mkEntry 200 (1, 1)) _).
  vm_compute. reflexivity.
Defined.

Lemma get_on_full_cache_evicts_oldest_witness :
  get10 2 "C" (allocated 100) sAB ["A"; "B"]
  = Ok (Returned 1,
        with_entry "C" 100 2 1 (without "A" (mkEntry 300 (0, 1)) sAB),
        ["A"; "B"; "C"]).
Proof.
  refine (get_on_full_cache_evicts_oldest (fun v : Z => v) 10 2 name_length
            2 "C" 100 sAB ["A"; "B"] 1 ["A"; "B"; "C"]
            "A" (mkEntry 300 (0, 1))
            sAB_consistent sAB_sums_ok _ _ _ _ _ _ _ _).
  - apply small_age_sum_ok; lia.
  - reflexivity.
  - vm_compute. reflexivity.
  - intros y Hy Hne. members Hy; [done|].
    unfold TimeSet.pair_lt. simpl. lia.
  - intros y Hy. unfold stale. members Hy; simpl; lia.
  - vm_compute. reflexivity.
  - reflexivity.
  - apply fresh_sAB; done.
Defined.

Lemma get_returns_fresh_or_obtained_witness :
  (∃ e, keysToTimeAndValue_ sA !! "A" = Some e
        ∧ ¬ stale 10 10 (timeAndValue e).1
        ∧ 1 = (timeAndValue e).2 ∧ sA = sA ∧ ["A"] = ["A"])
  ∨ (∃ value, name_length "A" ["A"] = (inr value, ["A"])
              ∧ (1 = value ∨ 1 = value)).
Proof.
  refine (get_returns_fresh_or_obtained (fun v : Z => v) 10 2 name_length
            10 "A" (allocated 100) sA ["A"] 1 sA ["A"] _).
  vm_compute. reflexivity.
Defined.

Lemma failure_is_not_cached_witness :
  @get string _ _ Z string (list string) (fun v => v) 10 2 unavailable
    11 "A" (allocated 100) sA ["A"]
  = Ok (Thrown "unavailable", empty_cache, ["A"; "A"]).
Proof.
  refine (proj1 (failure_is_not_cached (fun v : Z => v) 10 2 unavailable
                   11 "A" (allocated 100) sA ["A"] empty_cache "unavailable"
                   sA_sums_ok _ _)).
  - vm_compute. reflexivity.
  - left. reflexivity.
Defined.

End ExtraWitnesses.
